(** * py-sdm: the feature-extraction pipeline of [extract_features.py]

    A shallow embedding of the orchestration code of [extract_features.py]:
    directory resolution, the samplers, the search for an image backend,
    the parallel dispatch, the HDF5 archive written by [save_features] and
    read by [read_features], and the [--extensions] option of the command
    line.

    Python values are modelled as they are used: [str] as [string], a [dict]
    or [defaultdict] as a [gmap], a [set] as a [gset], a raised exception as
    the [Raise] outcome of a computation.  The collaborators the module
    imports (the image decoders, the descriptor routine, [numpy],
    [multiprocessing], [h5py]) are modelled by their documented behaviour,
    each where it is used. *)

From stdpp Require Import base strings list gmap sorting.
From Stdlib Require Import ZArith Ascii.

Open Scope Z_scope.
Set Warnings "-clear-no-such-hyp".

(** ** Exceptions and outcomes *)

Module Py.

(** The exceptions the module can surface.  Two [ValueError]s of the source
    carry a message that the claims quote, so they are kept apart. *)
Inductive exn : Type :=
  | IndexError                                (* list index out of range *)
  | KeyError (key : string)                   (* missing dict key *)
  | DuplicateImage (fname label : string)     (* ValueError("more than one {!r} with label {!r}") *)
  | OSError (path : string)                   (* os.listdir on a path that cannot be listed *)
  | UnpackError                               (* ValueError: not enough values to unpack *)
  | AssertionError
  | AmbiguousTruthValue                       (* ValueError: truth value of an array with more than one element *)
  | ValueError (msg : string)
  | ImportError (tried : list string)
  | UnboundLocalError (name : string)
  | TypeError (msg : string)
  | AttributeError (name : string)
  | WorkerError (path : string).              (* whatever a decoder or the descriptor routine raised *)

Inductive res (A : Type) : Type :=
  | Ok (a : A)
  | Raise (e : exn).
Arguments Ok {A} a.
Arguments Raise {A} e.

#[global] Instance exn_eq_dec : EqDecision exn.
Proof. solve_decision. Defined.

#[global] Instance res_ret : MRet res := @Ok.
#[global] Instance res_bind : MBind res := λ A B f m,
  match m with Ok a => f a | Raise e => Raise e end.
#[global] Instance res_fmap : FMap res := λ A B f m,
  match m with Ok a => Ok (f a) | Raise e => Raise e end.

Definition is_Ok {A} (m : res A) : Prop := ∃ a, m = Ok a.

(** A [for] loop whose body may raise: the first exception ends the loop. *)
Fixpoint for_each {S A} (body : S → A → res S) (s : S) (l : list A) : res S :=
  match l with
  | [] => Ok s
  | x :: l' => s' ← body s x; for_each body s' l'
  end.

(** [[f(x) for x in l]], evaluated left to right. *)
Fixpoint comprehension {A B} (f : A → res B) (l : list A) : res (list B) :=
  match l with
  | [] => Ok []
  | x :: l' => y ← f x; ys ← comprehension f l'; Ok (y :: ys)
  end.

(** [l[i]] for a non-negative constant index. *)
Definition getitem {A} (l : list A) (i : nat) : res A :=
  match l !! i with Some x => Ok x | None => Raise IndexError end.

(** [l[:n]]: a negative bound counts from the end. *)
Definition slice_to {A} (l : list A) (n : Z) : list A :=
  if decide (0 ≤ n) then take (Z.to_nat n) l
  else take (Z.to_nat (Z.of_nat (length l) + n)) l.

(** *** Strings *)

Definition dot : ascii := "."%char.
Definition slash : ascii := "/"%char.

(** [s.rsplit('.', 1)]: split once, at the last dot. *)
Fixpoint rsplit_last (sep : ascii) (s : string) : option (string * string) :=
  match s with
  | EmptyString => None
  | String c s' =>
      match rsplit_last sep s' with
      | Some (a, b) => Some (String c a, b)
      | None => if decide (c = sep) then Some (EmptyString, s') else None
      end
  end.

Definition rsplit1 (sep : ascii) (s : string) : list string :=
  match rsplit_last sep s with
  | Some (a, b) => [a; b]
  | None => [s]
  end.

Definition lower_char (c : ascii) : ascii :=
  let n := nat_of_ascii c in
  if decide (65 ≤ n ≤ 90)%nat then ascii_of_nat (n + 32) else c.

(** [s.lower()] on a byte string. *)
Fixpoint lower (s : string) : string :=
  match s with
  | EmptyString => EmptyString
  | String c s' => String (lower_char c) (lower s')
  end.

Fixpoint endswith_char (c : ascii) (s : string) : bool :=
  match s with
  | EmptyString => false
  | String a EmptyString => bool_decide (a = c)
  | String _ s' => endswith_char c s'
  end.

Definition startswith_char (c : ascii) (s : string) : bool :=
  match s with
  | String a _ => bool_decide (a = c)
  | EmptyString => false
  end.

(** [os.path.join(a, b)] of [posixpath]. *)
Definition path_join (a b : string) : string :=
  if startswith_char slash b then b
  else if bool_decide (a = EmptyString) || endswith_char slash a then a +:+ b
  else a +:+ String slash b.

(** Comparison of byte strings, as [<=] on [str]. *)
Fixpoint str_leb (s t : string) : bool :=
  match s, t with
  | EmptyString, _ => true
  | String _ _, EmptyString => false
  | String a s', String b t' =>
      if (nat_of_ascii a <? nat_of_ascii b)%nat then true
      else if (nat_of_ascii b <? nat_of_ascii a)%nat then false
      else str_leb s' t'
  end.

Definition str_le (s t : string) : Prop := str_leb s t = true.

(** Comparison of 2-tuples of strings: first component, then second. *)
Definition pair_le (p q : string * string) : Prop :=
  if decide (p.1 = q.1) then str_le p.2 q.2 else str_le p.1 q.1.

#[global] Instance str_le_dec s t : Decision (str_le s t).
Proof. unfold str_le. apply _. Defined.
#[global] Instance pair_le_dec p q : Decision (pair_le p q).
Proof. unfold pair_le. destruct (decide (p.1 = q.1)); apply _. Defined.

(** [sorted(l)] on a list of strings and on a list of 2-tuples. *)
Definition sorted_str (l : list string) : list string := merge_sort str_le l.
Definition sorted_pairs (l : list (string * string)) : list (string * string) :=
  merge_sort pair_le l.

End Py.
Export Py.

(** ** The collaborators of the pipeline

    What [extract_features.py] imports and does not define: the file system,
    the image decoders, the geometric transform, the descriptor routine, the
    random number generator and the process scheduler. *)

(** The outcome of the [try] block of [_find_working_imread] for one
    backend: its imports go through, or one of them raises ImportError,
    before or after the name [imread] has been bound.  Only a [skimage]
    branch can fail after the binding: it imports [imread] and then selects
    the plugin. *)
Inductive probe := Imports | FailsUnbound | FailsBound.

Class Collaborators := {
  ndarray : Type;                       (* numpy arrays *)
  image : Type;                         (* a decoded pixel array *)
  kwargs : Type;                        (* the keyword arguments passed on to get_features *)
  rng : Type;                           (* the state of the module-level generator of [random] *)
  (* the file system: the entries of a directory, or nothing for a path
     that cannot be listed *)
  directory : string → option (list string);
  (* what the import statements of the branch of a backend do *)
  backend_probe : string → probe;
  imread_of : string → string → res image;
  img_shape : image → Z * Z;
  (* skimage.transform.rescale(img, num / den) and resize(img, (x, y)) *)
  rescale : image → Z → Z → res image;
  resize : image → Z * Z → res image;
  vl_phow : image → kwargs → res (ndarray * ndarray);
  take_columns : list nat → ndarray → ndarray;      (* a[:, cols] *)
  div_column_by_magnif : nat → kwargs → ndarray → ndarray;  (* a[:, c] /= magnif *)
  random_sample : ∀ {A}, rng → list A → Z → res (list A) * rng;
  cpu_count : Z;
  dtype : Type;
  asarray : dtype → ndarray → ndarray;  (* np.asarray(a, dtype=t) *)
  (* the time at which the workers of a pool complete task i *)
  completion_time : nat → nat;
}.

(** ** Samplers (lines 96-107) *)

Module Sampler.

(** [np.round] of the exact quotient [a / b] for [0 < b]: to the nearest
    integer, a tie to the even one. *)
Definition round_half_even (a b : Z) : Z :=
  let q := a / b in
  let r := a mod b in
  if decide (2 * r < b) then q
  else if decide (b < 2 * r) then q + 1
  else if Z.even q then q else q + 1.

(** [np.round(np.linspace(0, stop, n))].  The quotients are taken exactly;
    [numpy] computes them in double precision. *)
Definition linspace_round (stop n : Z) : res (list Z) :=
  if decide (n < 0) then Raise (ValueError "Number of samples must be non-negative")
  else if decide (n = 1) then Ok [0]
  else Ok ((λ k : nat, round_half_even (Z.of_nat k * stop) (n - 1)) <$> seq 0 (Z.to_nat n)).

(** [np.diff(a)] *)
Fixpoint diff (a : list Z) : list Z :=
  match a with
  | x :: (y :: _) as a' => (y - x) :: diff a'
  | _ => []
  end.

(** The truth value of a [numpy] array, as [assert] and [if] take it: an
    empty array is false, an array of one element is that element, any
    other array raises ValueError. *)
Definition array_truth (a : list bool) : res bool :=
  match a with
  | [] => Ok false
  | [b] => Ok b
  | _ => Raise AmbiguousTruthValue
  end.

Definition py_assert (c : res bool) : res () :=
  b ← c; if b : bool then Ok () else Raise AssertionError.

Definition _sample_uniform {A} (lst : list A) (n : Z) : res (list A) :=
  if decide (Z.of_nat (length lst) ≤ n) then Ok lst
  else
    indices ← linspace_round (Z.of_nat (length lst) - 1) n;
    _ ← py_assert (array_truth ((λ d, bool_decide (1 ≤ d)) <$> diff indices));
    comprehension (λ i, getitem lst (Z.to_nat i)) indices.

Section samplers.
Context `{Collaborators}.

(** A sampler takes the list and the cap; [random] also advances the
    generator. *)
Definition sampler : Type :=
  list (string * string) → Z → rng → res (list (string * string)) * rng.

Definition sample_first : sampler := λ lst n g, (Ok (slice_to lst n), g).
Definition sample_random : sampler :=
  λ lst n g, random_sample g lst (Z.min n (Z.of_nat (length lst))).
Definition sample_uniform : sampler := λ lst n g, (_sample_uniform lst n, g).

Definition SAMPLERS : gmap string sampler :=
  {[ "first" := sample_first; "random" := sample_random; "uniform" := sample_uniform ]}.
End samplers.

End Sampler.
Export Sampler.

(** ** Decoding and the per-image extraction (lines 26-93) *)

Module Loader.
Section extractor.
Context `{Collaborators}.

(** [get_features]: the descriptor routine, then the norm column is
    dropped and the scale column divided by [magnif]. *)
Definition get_features (img : image) (kw : kwargs) : res (ndarray * ndarray) :=
  '(frames, descrs) ← vl_phow img kw;
  let frames := take_columns [0; 1; 3]%nat frames in
  let frames := div_column_by_magnif 2 kw frames in
  Ok (frames, descrs).

Definition IMREAD_MODES : list string :=
  ["skimage-pil"; "skimage-qt"; "skimage-gdal"; "cv2"; "matplotlib"; "skimage-freeimage"].

(** [modes] is a list of backend names or a single name. *)
Inductive modes_arg :=
  | Modes (l : list string)
  | OneMode (m : string).

Definition has_branch (mode : string) : bool :=
  String.prefix "skimage-" mode || bool_decide (mode = "cv2")
    || bool_decide (mode = "matplotlib").

(** The loop of [_find_working_imread].  [imread] names the backend whose
    reader the local variable [imread] is bound to, if it is bound: a mode
    without a branch returns whatever an earlier iteration left there. *)
Fixpoint find_imread_loop (all modes : list string) (imread : option string)
    : res (string * string) :=
  match modes with
  | [] => Raise (ImportError all)
  | mode :: rest =>
      if has_branch mode then
        match backend_probe mode with
        | Imports => Ok (mode, mode)
        | FailsUnbound => find_imread_loop all rest imread
        | FailsBound =>
            find_imread_loop all rest
              (if String.prefix "skimage-" mode then Some mode else imread)
        end
      else
        match imread with
        | Some m => Ok (mode, m)
        | None => Raise (UnboundLocalError "imread")
        end
  end.

(** [_find_working_imread]: the name of the first backend that works, and
    the backend whose reader comes with it ([imread_of] of that backend). *)
Definition _find_working_imread (modes : modes_arg) : res (string * string) :=
  let modes := match modes with OneMode m => [m] | Modes l => l end in
  find_imread_loop modes modes None.

Definition _load_features (filename : string) (imread_mode : modes_arg)
    (size : option (option Z * option Z)) (kw : kwargs) : res (ndarray * ndarray) :=
  '(_, backend) ← _find_working_imread imread_mode;
  img ← imread_of backend filename;
  img ← match size with
        | None | Some (None, None) => Ok img
        | Some (new_x, new_y) =>
            let '(curr_x, curr_y) := img_shape img in
            match new_x, new_y with
            | Some x, None => rescale img x curr_x
            | None, Some y => rescale img y curr_y
            | Some x, Some y => resize img (x, y)
            | None, None => Ok img
            end
        end;
  get_features img kw.
End extractor.
End Loader.
Export Loader.

(** ** [extract_features] (lines 110-174) *)

Module Pipeline.

Inductive pool_state := RUN | CLOSE | TERMINATE.

(** A worker pool of [multiprocessing]: its number of processes, and whether
    it still runs. *)
Record pool := Pool { processes : Z; state : pool_state }.

#[global] Instance pool_state_eq_dec : EqDecision pool_state.
Proof. solve_decision. Defined.
#[global] Instance pool_eq_dec : EqDecision pool.
Proof. solve_decision. Defined.

(** What the extraction of one image returns: the frames and the
    descriptors. *)
Abbreviation batch := (ndarray * ndarray)%type (only parsing).

Section extract.
Context `{Collaborators}.

(** What a call can change outside its own variables: the random
    generator and the worker pools of the process. *)
Record world := World { w_rng : rng; w_pools : list pool }.

Definition M (A : Type) : Type := world → res A * world.
#[global] Instance M_ret : MRet M := λ A a w, (Ok a, w).
#[global] Instance M_bind : MBind M := λ A B f m w,
  match m w with
  | (Ok a, w') => f a w'
  | (Raise e, w') => (Raise e, w')
  end.
Definition lift {A} (r : res A) : M A := λ w, (r, w).
Definition with_rng {A} (f : rng → res A * rng) : M A := λ w,
  let '(r, g) := f (w_rng w) in (r, World g (w_pools w)).

Fixpoint comprehensionM {A B} (f : A → M B) (l : list A) : M (list B) :=
  match l with
  | [] => mret []
  | x :: l' => y ← f x; ys ← comprehensionM f l'; mret (y :: ys)
  end.

Record Features := mkFeatures {
  labels : list string;
  names : list string;
  frames : list ndarray;
  features : list ndarray;
}.

(** [dirs]: an iterable of directory names, or a dict from directory
    names to labels. *)
Inductive dirs_arg :=
  | DirNames (l : list string)
  | DirLabels (m : gmap string string).

(** Lines 134-135. *)
Definition label_dirs (dirs : dirs_arg) : gmap string string :=
  match dirs with
  | DirLabels m => m
  | DirNames l => foldl (λ m dirname, <[dirname := dirname]> m) ∅ l
  end.

Definition DEFAULT_EXTENSIONS : gset string := {[ "jpg"; "png"; "bmp" ]}.

(** The two [defaultdict]s of the resolution loop; a missing key reads
    as the empty list or the empty set. *)
Record resolved := Resolved {
  ims_by_label : gmap string (list (string * string));
  seen_names : gmap string (gset string);
}.

(** [os.listdir] *)
Definition os_listdir (dirname : string) : res (list string) :=
  match directory dirname with
  | Some l => Ok l
  | None => Raise (OSError dirname)
  end.

(** The body of the inner loop, lines 142-147. *)
Definition scan_file (extensions : gset string) (dirname label : string)
    (st : resolved) (fname : string) : res resolved :=
  ext ← getitem (rsplit1 dot fname) 1;
  if decide (lower ext ∈ extensions) then
    if decide (fname ∈ seen_names st !!! label) then
      Raise (DuplicateImage fname label)
    else
      Ok (Resolved
            (<[label := ims_by_label st !!! label ++ [(dirname, fname)]]> (ims_by_label st))
            (<[label := {[fname]} ∪ seen_names st !!! label]> (seen_names st)))
  else Ok st.

Definition scan_dir (extensions : gset string) (st : resolved)
    (entry : string * string) : res resolved :=
  let '(dirname, label) := entry in
  fnames ← os_listdir dirname;
  for_each (scan_file extensions dirname label) st fnames.

(** Lines 138-147: the dict from each label to its (dirname, fname)
    pairs. *)
Definition resolve (extensions : gset string) (dirs : gmap string string)
    : res (gmap string (list (string * string))) :=
  st ← for_each (scan_dir extensions) (Resolved ∅ ∅) (map_to_list dirs);
  Ok (ims_by_label st).

(** Line 150: the sampler, looked up only when a cap is given. *)
Definition choose_sample (img_per_cla : option Z) (sampler_name : string)
    : res (list (string * string) → M (list (string * string))) :=
  match img_per_cla with
  | None => Ok (λ x, mret x)
  | Some n =>
      match SAMPLERS !! sampler_name with
      | Some s => Ok (λ x, with_rng (s x n))
      | None => Raise (KeyError sampler_name)
      end
  end.

Definition unzip3 {A B C} (l : list (A * B * C)) : res (list A * list B * list C) :=
  match l with
  | [] => Raise UnpackError
  | _ => Ok (l.*1.*1, l.*1.*2, l.*2)
  end.

Definition unzip2 {A B} (l : list (A * B)) : res (list A * list B) :=
  match l with
  | [] => Raise UnpackError
  | _ => Ok (l.*1, l.*2)
  end.

(** Lines 151-155: the rows of one label, then of all labels. *)
Definition row (label : string) (image : string * string) : string * string * string :=
  let '(dirname, fname) := image in (label, fname, path_join dirname fname).

Definition select_label (sample : list (string * string) → M (list (string * string)))
    (entry : string * list (string * string)) : M (list (string * string * string)) :=
  let '(label, images) := entry in
  chosen ← sample (sorted_pairs images);
  mret (row label <$> chosen).

Definition select (sample : list (string * string) → M (list (string * string)))
    (ims : gmap string (list (string * string)))
    : M (list string * list string * list string) :=
  rows ← comprehensionM (select_label sample) (map_to_list ims);
  lift (unzip3 (concat rows)).

(** *** Dispatch *)

Definition map_method : Type := (string → res batch) → list string → res (list batch).

(** [parallel]: False, True, None, an integer, or an object with a [map]
    method. *)
Inductive parallel_arg :=
  | ParFalse
  | ParTrue
  | ParNone
  | ParInt (n : Z)
  | ParObject (map : map_method).

(** Modelled from the spec: [strict_map] of [utils], which is not among
    the sources.  Section 4.5: "strictly sequential, preserves input order
    and surfaces the first exception immediately". *)
Definition strict_map {A B} (f : A → res B) (xs : list A) : res (list B) :=
  comprehension f xs.

(** [multiprocessing.Pool.map]: the tasks complete in the order of their
    completion times; each result is stored in the slot of its task, and
    the slots are returned once every task has completed.  The first
    exception to arrive is raised again in the caller. *)
Definition completion_le (i j : nat) : Prop :=
  (completion_time i ≤ completion_time j)%nat.
#[global] Instance completion_le_dec i j : Decision (completion_le i j).
Proof. unfold completion_le. apply _. Defined.

Definition store_result {A B} (f : A → res B) (xs : list A)
    (slots : list (option B)) (i : nat) : res (list (option B)) :=
  match xs !! i with
  | Some x => y ← f x; Ok (<[i := Some y]> slots)
  | None => Ok slots
  end.

Definition pool_map {A B} (f : A → res B) (xs : list A) : res (list B) :=
  let n := length xs in
  slots ← for_each (store_result f xs) (replicate n (@None B))
            (merge_sort completion_le (seq 0 n));
  Ok (omap (M := list) id slots).

(** [multiprocessing.Pool(processes)] *)
Definition mp_Pool (procs : option Z) : M pool := λ w,
  let n := default cpu_count procs in
  if decide (n < 1) then (Raise (ValueError "Number of processes must be at least 1"), w)
  else (Ok (Pool n RUN), World (w_rng w) (w_pools w ++ [Pool n RUN])).

(** Lines 158-166. *)
Definition choose_map (parallel : parallel_arg) : M map_method :=
  match parallel with
  | ParObject map => mret map
  | ParFalse => mret strict_map
  | ParTrue | ParNone => _ ← mp_Pool None; mret pool_map
  | ParInt n => _ ← mp_Pool (Some n); mret pool_map
  end.

(** Line 172, the extraction closure: [_load_features] with the name of
    the backend found once. *)
Definition load_features_with (imread_mode : string) (size : option (option Z * option Z))
    (kw : kwargs) (filename : string) : res batch :=
  _load_features filename (OneMode imread_mode) size kw.

(** Lines 157-174, given the three sequences of line 151. *)
Definition dispatch (imread_mode : modes_arg) (parallel : parallel_arg)
    (size : option (option Z * option Z)) (kw : kwargs)
    (sel : list string * list string * list string) : M Features :=
  let '(labels, image_names, paths) := sel in
  do_map ← choose_map parallel;
  '(imread_mode, _) ← lift (_find_working_imread imread_mode);
  let load_features := load_features_with imread_mode size kw in
  results ← lift (do_map load_features paths);
  '(frames, descrs) ← lift (unzip2 results);
  mret (mkFeatures labels image_names frames descrs).

Definition extract_features (dirs : dirs_arg) (img_per_cla : option Z)
    (sampler_name : string) (extensions : gset string) (imread_mode : modes_arg)
    (parallel : parallel_arg) (size : option (option Z * option Z)) (kw : kwargs)
    : M Features :=
  let dirs := label_dirs dirs in
  ims ← lift (resolve extensions dirs);
  sample ← lift (choose_sample img_per_cla sampler_name);
  sel ← select sample ims;
  dispatch imread_mode parallel size kw sel.
End extract.
End Pipeline.
Export Pipeline.

(** ** The HDF5 container, as [h5py] presents it *)

Module H5.
Section h5.
Context `{Collaborators}.

(** An object of the file is a dataset or a group; a group maps link
    names to objects. *)
#[warnings="-register-all"]
Inductive h5obj :=
  | H5Dataset (data : ndarray)
  | H5Group (members : gmap string h5obj).

Record h5file := H5File {
  root : gmap string h5obj;
  attrs : gmap string string;
}.

(** A name given to a group method is a path: [/] separates its
    components, empty components and [.] are skipped. *)
Fixpoint split_on (sep : ascii) (s : string) : list string :=
  match s with
  | EmptyString => [EmptyString]
  | String c s' =>
      if decide (c = sep) then EmptyString :: split_on sep s'
      else match split_on sep s' with
           | w :: ws => String c w :: ws
           | [] => [String c EmptyString]
           end
  end.

Definition components (name : string) : list string :=
  filter (λ c, c ≠ EmptyString ∧ c ≠ ".") (split_on slash name).

(** The object at a path below a group. *)
Fixpoint lookup_path (comps : list string) (ms : gmap string h5obj) : option h5obj :=
  match comps with
  | [] => Some (H5Group ms)
  | c :: cs =>
      match ms !! c with
      | Some (H5Group sub) => lookup_path cs sub
      | Some (H5Dataset d) => match cs with [] => Some (H5Dataset d) | _ => None end
      | None => None
      end
  end.

(** Link a new object at a path, creating the missing intermediate
    groups.  A name that is taken is never linked again. *)
Fixpoint link_at (comps : list string) (o : h5obj) (ms : gmap string h5obj)
    : res (gmap string h5obj) :=
  match comps with
  | [] => Raise (ValueError "name already exists")
  | c :: cs =>
      match cs with
      | [] =>
          match ms !! c with
          | None => Ok (<[c := o]> ms)
          | Some _ => Raise (ValueError "name already exists")
          end
      | _ =>
          match ms !! c with
          | None => sub ← link_at cs o ∅; Ok (<[c := H5Group sub]> ms)
          | Some (H5Group sub) => sub' ← link_at cs o sub; Ok (<[c := H5Group sub']> ms)
          | Some (H5Dataset _) => Raise (ValueError "component is not a group")
          end
      end
  end.

(** Writing goes through the open file. *)
Definition H5 (A : Type) : Type := h5file → res A * h5file.
#[global] Instance H5_ret : MRet H5 := λ A a f, (Ok a, f).
#[global] Instance H5_bind : MBind H5 := λ A B k m f,
  match m f with
  | (Ok a, f') => k a f'
  | (Raise e, f') => (Raise e, f')
  end.

Fixpoint for_eachH {A} (body : A → H5 ()) (l : list A) : H5 () :=
  match l with
  | [] => mret ()
  | x :: l' => _ ← body x; for_eachH body l'
  end.

(** A group handle is the absolute path of the group; a name that starts
    with [/] is resolved from the root. *)
Definition target (g : list string) (name : string) : list string :=
  if startswith_char slash name then components name else g ++ components name.

Definition link (path : list string) (o : h5obj) : H5 () := λ f,
  match link_at path o (root f) with
  | Ok r => (Ok (), H5File r (attrs f))
  | Raise e => (Raise e, f)
  end.

(** [g.create_group(name)] *)
Definition create_group (g : list string) (name : string) : H5 (list string) :=
  _ ← link (target g name) (H5Group ∅); mret (target g name).

(** [g.require_group(name)] *)
Definition require_group (g : list string) (name : string) : H5 (list string) := λ f,
  match lookup_path (target g name) (root f) with
  | None => create_group g name f
  | Some (H5Group _) => (Ok (target g name), f)
  | Some (H5Dataset _) => (Raise (TypeError "Incompatible object (Dataset) already exists"), f)
  end.

(** [g[name] = array] *)
Definition setitem (g : list string) (name : string) (data : ndarray) : H5 () :=
  link (target g name) (H5Dataset data).

(** [f.attrs[k] = v] *)
Definition set_attr (k v : string) : H5 () := λ f,
  (Ok (), H5File (root f) (<[k := v]> (attrs f))).

(** Reading: [obj[name]], [dataset[...]] and [iteritems(obj)]. *)
Definition h5_getitem (o : h5obj) (name : string) : res h5obj :=
  match o with
  | H5Group ms =>
      match lookup_path (components name) ms with
      | Some o' => Ok o'
      | None => Raise (KeyError name)
      end
  | H5Dataset _ => Raise (ValueError "Field names only allowed for compound types")
  end.

Definition h5_read (o : h5obj) : res ndarray :=
  match o with
  | H5Dataset d => Ok d
  | H5Group _ => Raise (TypeError "Accessing a group is done with bytes or str")
  end.

Definition h5_items (o : h5obj) : res (list (string * h5obj)) :=
  match o with
  | H5Group ms => Ok (map_to_list ms)
  | H5Dataset _ => Raise (AttributeError "items")
  end.
End h5.
End H5.
Export H5.

(** ** [save_features] and [read_features] (lines 300-337) *)

Module Archive.
Section archive.
Context `{Collaborators}.

(** [izip] of the four sequences of [features]: side by side, as long
    as the shortest. *)
Fixpoint izip4 (ls ns : list string) (fs ds : list ndarray)
    : list (string * string * ndarray * ndarray) :=
  match ls, ns, fs, ds with
  | l :: ls', n :: ns', f :: fs', d :: ds' => (l, n, f, d) :: izip4 ls' ns' fs' ds'
  | _, _, _, _ => []
  end.

Definition records (feats : Features) : list (string * string * ndarray * ndarray) :=
  izip4 (labels feats) (names feats) (frames feats) (features feats).

(** The body of the loop of [save_features], lines 309-311. *)
Definition save_record (r : string * string * ndarray * ndarray) : H5 () :=
  let '(label, name, frames, descrs) := r in
  lg ← require_group [] label;
  g ← create_group lg name;
  _ ← setitem g "frames" frames;
  setitem g "features" descrs.

Definition save_features (feats : Features) (attrs : gmap string string) : H5 () :=
  _ ← for_eachH save_record (records feats);
  for_eachH (λ '(k, v), set_attr k v) (map_to_list attrs).

(** The body of the inner loop of [read_features], lines 328-335. *)
Definition read_leaf (features_dtype : option dtype) (label : string)
    (entry : string * h5obj) : res (string * string * ndarray * ndarray) :=
  let '(fname, g) := entry in
  frames ← h5_getitem g "frames" ≫= h5_read;
  feats ← match features_dtype with
          | Some t => asarray t <$> (h5_getitem g "features" ≫= h5_read)
          | None => h5_getitem g "features" ≫= h5_read
          end;
  Ok (label, fname, frames, feats).

Definition read_label (features_dtype : option dtype) (entry : string * h5obj)
    : res (list (string * string * ndarray * ndarray)) :=
  let '(label, label_g) := entry in
  items ← h5_items label_g;
  comprehension (read_leaf features_dtype label) items.

Definition of_records (rs : list (string * string * ndarray * ndarray)) : Features :=
  mkFeatures (rs.*1.*1.*1) (rs.*1.*1.*2) (rs.*1.*2) (rs.*2).

Definition read_features (f : h5file) (load_attrs : bool) (features_dtype : option dtype)
    : res (Features * option (gmap string string)) :=
  rows ← comprehension (read_label features_dtype) (map_to_list (root f));
  let ret := of_records (concat rows) in
  Ok (ret, if load_attrs then Some (attrs f) else None).
End archive.
End Archive.
Export Archive.

(** ** The command line (lines 177-297) *)

Module Cli.

Definition comma : ascii := ","%char.

(** The [type] of the option [--extensions], line 249:
    [set(s.lower().split(','))]. *)
Definition parse_extensions (s : string) : gset string :=
  list_to_set (split_on comma (lower s)).

End Cli.
Export Cli.

(** ** A concrete world

    A small instance of the collaborators, on which the definitions above
    run: arrays are lists of integers, a decoded image is its own path, only
    the [cv2] backend imports, the descriptor routine returns the length of
    the path, and the workers of a pool finish the later tasks first. *)

Module Toy.

Definition collaborators (fs : gmap string (list string)) : Collaborators := {|
  ndarray := list Z;
  image := string;
  kwargs := ();
  rng := nat;
  directory d := fs !! d;
  backend_probe m :=
    if bool_decide (m = "cv2") then Imports
    else if bool_decide (m = "skimage-pil") then FailsBound else FailsUnbound;
  imread_of m p := if bool_decide (p = "img/broken.jpg") then Raise (WorkerError p) else Ok p;
  img_shape _ := (1, 1);
  rescale img _ _ := Ok img;
  resize img _ := Ok img;
  vl_phow img _ := Ok ([Z.of_nat (String.length img)], [Z.of_nat (String.length img); 7]);
  take_columns _ a := a;
  div_column_by_magnif _ _ a := a;
  random_sample A g l n := (Ok (take (Z.to_nat n) (rotate g l)), S g);
  cpu_count := 4;
  dtype := ();
  asarray _ a := a;
  completion_time i := (10 - i)%nat;
|}.

End Toy.

(** ** Notions used to state the properties *)

Module Notions.

(** The ten images of one directory, in the order of the directory listing. *)
Definition ten : list string :=
  ["h.jpg"; "c.jpg"; "j.jpg"; "a.jpg"; "e.jpg"; "b.jpg"; "g.jpg"; "d.jpg"; "i.jpg"; "f.jpg"].

(** A file system of one directory with three images. *)
Definition three_images : gmap string (list string) :=
  {[ "one" := ["c.jpg"; "a.jpg"; "notes.txt"; "bb.png"] ]}.

(** The text after the last dot of a file name, when there is a dot. *)
Definition extension (fname : string) : option string := snd <$> rsplit_last dot fname.

Definition has_dot (fname : string) : Prop := is_Some (extension fname).

(** A file name qualifies when its lower-cased extension is allowed. *)
Definition qualifies (extensions : gset string) (fname : string) : Prop :=
  ∃ e, extension fname = Some e ∧ lower e ∈ extensions.

#[global] Instance has_dot_dec fname : Decision (has_dot fname).
Proof. unfold has_dot. apply _. Defined.
#[global] Instance qualifies_dec extensions fname : Decision (qualifies extensions fname).
Proof.
  unfold qualifies. destruct (extension fname) as [e|].
  - destruct (decide (lower e ∈ extensions)); [left; eauto|right].
    by intros (? & [= <-] & ?).
  - right. by intros (? & ? & ?).
Defined.

(** The first key of a list that was seen before: by [P], or earlier in
    the list. *)
Fixpoint first_dup {K} `{EqDecision K} (P : K → Prop) `{∀ k, Decision (P k)}
    (ks : list K) : option K :=
  match ks with
  | [] => None
  | k :: ks' => if decide (P k) then Some k else first_dup (λ k', k' = k ∨ P k') ks'
  end.

#[global] Instance probe_eq_dec : EqDecision probe.
Proof. solve_decision. Defined.

Section notions.
Context `{Collaborators}.

Definition listing (dirname : string) : list string :=
  match os_listdir dirname with Ok l => l | Raise _ => [] end.

(** The qualifying images of the directories, as (label, directory, file
    name), in the order of the scan. *)
Definition candidates (extensions : gset string) (entries : list (string * string))
    : list (string * string * string) :=
  entries ≫= λ '(dirname, label),
    (λ fname, (label, dirname, fname)) <$> filter (qualifies extensions) (listing dirname).

(** The identity of an image: its label and its file name. *)
Definition identity (c : string * string * string) : string * string := (c.1.1, c.2).

(** What the resolution loop does to its two dicts for one new image. *)
Definition add_image (dirname label : string) (st : resolved) (fname : string) : resolved :=
  Resolved
    (<[label := ims_by_label st !!! label ++ [(dirname, fname)]]> (ims_by_label st))
    (<[label := {[fname]} ∪ seen_names st !!! label]> (seen_names st)).

Definition add_entry (extensions : gset string) (st : resolved)
    (entry : string * string) : resolved :=
  foldl (add_image entry.1 entry.2) st (filter (qualifies extensions) (listing entry.1)).

(** Whether the identity (label, file name) is recorded in [seen_names]. *)
Definition seen_key (st : resolved) (k : string * string) : Prop :=
  k.2 ∈ seen_names st !!! k.1.
#[global] Instance seen_key_dec st k : Decision (seen_key st k).
Proof. unfold seen_key. apply _. Defined.

(** The images of one label among the candidates, in the order of the scan. *)
Definition images_of (label : string) (cands : list (string * string * string))
    : list (string * string) :=
  omap (λ c, if decide (c.1.1 = label) then Some (c.1.2, c.2) else None) cands.

(** Every directory can be listed and every name listed has a dot. *)
Definition listable_dotted (entries : list (string * string)) : Prop :=
  Forall (λ entry, ∃ l, os_listdir entry.1 = Ok l ∧ Forall has_dot l) entries.

(** A [map] method that returns the results in the order of its inputs
    whenever every call succeeds. *)
Definition ordered_map (m : map_method) : Prop :=
  ∀ f xs ys, comprehension f xs = Ok ys → m f xs = Ok ys.

(** The number of processes of the pool that [parallel] asks the call to
    create, if it asks for one. *)
Definition pool_size (parallel : parallel_arg) : option Z :=
  match parallel with
  | ParTrue | ParNone => Some cpu_count
  | ParInt n => Some n
  | ParFalse | ParObject _ => None
  end.

(** The dispatch modes of the specification: sequential, a pool supplied
    by the caller whose [map] is an ordered map, or a pool of at least one
    process created by the call. *)
Definition dispatch_mode (parallel : parallel_arg) : Prop :=
  match parallel with
  | ParFalse => True
  | ParObject m => ordered_map m
  | ParTrue | ParNone => 1 ≤ cpu_count
  | ParInt n => 1 ≤ n
  end.

(** The (directory, file name) pairs a resolved dict holds, with their label. *)
Definition resolved_images (ims : gmap string (list (string * string)))
    : list (string * string * string) :=
  map_to_list ims ≫= λ '(label, images), (λ '(d, f), (label, d, f)) <$> images.

(** A group grows into another: every object it holds is still there, a
    dataset with the same array, a group as a group. *)
Definition extends (ms ms' : gmap string h5obj) : Prop :=
  ∀ path o, lookup_path path ms = Some o →
    match o with
    | H5Dataset d => lookup_path path ms' = Some (H5Dataset d)
    | H5Group _ => ∃ g, lookup_path path ms' = Some (H5Group g)
    end.

(** The path of the leaf group of a record. *)
Definition leaf_path (label name : string) : list string :=
  target (target [] label) name.

(** A name that is one link: it is its own single path component. *)
Definition link_name (s : string) : Prop := components s = [s].
#[global] Instance link_name_dec s : Decision (link_name s).
Proof. unfold link_name. apply _. Defined.

(** *** The archive as a table

    The file that [save_features] builds from names of one link each: a
    table from the label and the image name to the two arrays. *)

Definition record_key (r : string * string * ndarray * ndarray) : string * string :=
  (r.1.1.1, r.1.1.2).

(** The order of the records by (label, name). *)
Definition record_le (r1 r2 : string * string * ndarray * ndarray) : Prop :=
  pair_le (record_key r1) (record_key r2).
#[global] Instance record_le_dec r1 r2 : Decision (record_le r1 r2).
Proof. unfold record_le. apply _. Defined.

Definition sort_records (rs : list (string * string * ndarray * ndarray))
    : list (string * string * ndarray * ndarray) :=
  merge_sort record_le rs.

(** A record as it is read back under an optional dtype. *)
Definition coerce (features_dtype : option dtype) (r : string * string * ndarray * ndarray)
    : string * string * ndarray * ndarray :=
  (r.1.1.1, r.1.1.2, r.1.2,
   match features_dtype with Some t => asarray t r.2 | None => r.2 end).

Definition leaf_obj (v : ndarray * ndarray) : h5obj :=
  H5Group (<["features" := H5Dataset v.2]> (<["frames" := H5Dataset v.1]> ∅)).

Definition tree_of (t : gmap string (gmap string (ndarray * ndarray))) : gmap string h5obj :=
  (λ lm, H5Group (leaf_obj <$> lm)) <$> t.

Definition table_insert (t : gmap string (gmap string (ndarray * ndarray)))
    (r : string * string * ndarray * ndarray) : gmap string (gmap string (ndarray * ndarray)) :=
  <[r.1.1.1 := <[r.1.1.2 := (r.1.2, r.2)]> (default ∅ (t !! r.1.1.1))]> t.

Definition lookup2 (t : gmap string (gmap string (ndarray * ndarray))) (k : string * string)
    : option (ndarray * ndarray) :=
  t !! k.1 ≫= λ lm, lm !! k.2.

Definition flatten (features_dtype : option dtype)
    (t : gmap string (gmap string (ndarray * ndarray)))
    : list (string * string * ndarray * ndarray) :=
  map_to_list t ≫= λ entry,
    (λ leaf, coerce features_dtype (entry.1, leaf.1, leaf.2.1, leaf.2.2)) <$> map_to_list entry.2.

(** *** Notions for the backends, the selection and the appends *)

(** The backend whose reader the variable [imread] is left bound to by the
    failed attempts on [tried]: the last [skimage] backend among them whose
    plugin failed to load after [imread] was imported. *)
Definition stale_reader (tried : list string) : option string :=
  last (filter (λ x, String.prefix "skimage-" x = true ∧ backend_probe x = FailsBound) tried).

(** The row of the result that an image gives: its label, its file name
    and its path. *)
Definition row_of (c : string * string * string) : string * string * string :=
  (c.1.1, c.2, path_join c.1.2 c.2).

(** A write that neither reads nor changes the attributes of the root:
    what it returns and what it does to the groups depend on the groups
    alone. *)
Definition attr_blind {X} (m : H5 X) : Prop :=
  ∀ r a, m (H5File r a) = ((m (H5File r ∅)).1, H5File (root (m (H5File r ∅)).2) a).
End notions.

End Notions.
Export Notions.

(** * Properties *)

(** Closed goals are settled by running the definitions. *)
Ltac by_computation := apply (bool_decide_unpack _); vm_compute; exact I.

Ltac run_lhs :=
  lazymatch goal with
  | |- ?l = _ => let v := eval vm_compute in l in
                 transitivity v; [vm_compute; reflexivity|reflexivity]
  end.

(** ** Facts about the Python layer *)

Module PyFacts.

Lemma str_leb_refl s : str_leb s s = true.
Proof. induction s as [|a s IH]; simpl; [done|]. by rewrite Nat.ltb_irrefl. Qed.

Lemma str_leb_total s t : str_leb s t = true ∨ str_leb t s = true.
Proof.
  revert t. induction s as [|a s IH]; intros [|b t]; simpl; auto.
  destruct (Nat.ltb_spec (nat_of_ascii a) (nat_of_ascii b)) as [Hab|Hab]; [auto|].
  destruct (Nat.ltb_spec (nat_of_ascii b) (nat_of_ascii a)) as [Hba|Hba]; [auto|].
  apply IH.
Qed.

Lemma str_leb_trans s t u :
  str_leb s t = true → str_leb t u = true → str_leb s u = true.
Proof.
  revert t u. induction s as [|a s IH]; intros [|b t] [|c u]; simpl; try done.
  destruct (Nat.ltb_spec (nat_of_ascii a) (nat_of_ascii b)),
    (Nat.ltb_spec (nat_of_ascii b) (nat_of_ascii a)),
    (Nat.ltb_spec (nat_of_ascii b) (nat_of_ascii c)),
    (Nat.ltb_spec (nat_of_ascii c) (nat_of_ascii b)),
    (Nat.ltb_spec (nat_of_ascii a) (nat_of_ascii c)),
    (Nat.ltb_spec (nat_of_ascii c) (nat_of_ascii a));
    try done; try lia.
  apply IH.
Qed.

Lemma nat_of_ascii_inj a b : nat_of_ascii a = nat_of_ascii b → a = b.
Proof.
  intros E. rewrite <-(ascii_nat_embedding a), <-(ascii_nat_embedding b). by rewrite E.
Qed.

Lemma str_leb_antisym s t : str_leb s t = true → str_leb t s = true → s = t.
Proof.
  revert t. induction s as [|a s IH]; intros [|b t]; simpl; try done.
  destruct (Nat.ltb_spec (nat_of_ascii a) (nat_of_ascii b)),
    (Nat.ltb_spec (nat_of_ascii b) (nat_of_ascii a)); try done; try lia.
  intros ??. f_equal; [apply nat_of_ascii_inj; lia|by apply IH].
Qed.

#[global] Instance str_le_refl : Reflexive str_le.
Proof. intros s. apply str_leb_refl. Qed.
#[global] Instance str_le_trans : Transitive str_le.
Proof. intros s t u. apply str_leb_trans. Qed.
#[global] Instance str_le_total : Total str_le.
Proof. intros s t. apply str_leb_total. Qed.
#[global] Instance str_le_antisym : AntiSymm (=) str_le.
Proof. intros s t. apply str_leb_antisym. Qed.

#[global] Instance pair_le_refl : Reflexive pair_le.
Proof. intros [a b]. unfold pair_le. simpl. by rewrite decide_True. Qed.

#[global] Instance pair_le_total : Total pair_le.
Proof.
  intros [a b] [c d]. unfold pair_le. simpl.
  destruct (decide (a = c)) as [->|Hne].
  - rewrite decide_True by done. apply (total str_le).
  - rewrite decide_False by done. apply (total str_le).
Qed.

#[global] Instance pair_le_antisym : AntiSymm (=) pair_le.
Proof.
  intros [a b] [c d]. unfold pair_le. simpl.
  destruct (decide (a = c)) as [->|Hne].
  - rewrite decide_True by done. intros ??. f_equal. by apply (anti_symm str_le).
  - rewrite decide_False by done. intros ??. destruct Hne. by apply (anti_symm str_le).
Qed.

#[global] Instance pair_le_trans : Transitive pair_le.
Proof.
  intros [a b] [c d] [e f]. unfold pair_le. simpl.
  destruct (decide (a = c)) as [->|Hac], (decide (c = e)) as [->|Hce];
    rewrite ?decide_True by done; rewrite ?decide_False by done.
  - apply (transitivity (R := str_le)).
  - done.
  - done.
  - intros Hac' Hce'. destruct (decide (a = e)) as [->|Hae].
    + destruct Hac. by apply (anti_symm str_le).
    + by trans c.
Qed.

(** [sorted] returns the sorted arrangement of its argument. *)
Lemma sorted_pairs_sorted l : StronglySorted pair_le (sorted_pairs l).
Proof. apply StronglySorted_merge_sort; apply _. Qed.
Lemma sorted_pairs_perm l : sorted_pairs l ≡ₚ l.
Proof. apply merge_sort_Permutation. Qed.
Lemma sorted_str_sorted l : StronglySorted str_le (sorted_str l).
Proof. apply StronglySorted_merge_sort; apply _. Qed.
Lemma sorted_str_perm l : sorted_str l ≡ₚ l.
Proof. apply merge_sort_Permutation. Qed.

(** Sorting the pairs of one directory sorts their file names. *)
Lemma sorted_pairs_one_dir d (fnames : list string) :
  sorted_pairs ((d,.) <$> fnames) = (d,.) <$> sorted_str fnames.
Proof.
  apply (StronglySorted_unique pair_le).
  - apply sorted_pairs_sorted.
  - eapply StronglySorted_fmap, sorted_str_sorted.
    intros x y Hxy. unfold pair_le. simpl. by rewrite decide_True.
  - rewrite sorted_pairs_perm. by rewrite sorted_str_perm.
Qed.

Lemma for_each_app {S A} (body : S → A → res S) s l1 l2 :
  for_each body s (l1 ++ l2) = s' ← for_each body s l1; for_each body s' l2.
Proof.
  revert s. induction l1 as [|x l1 IH]; intros s; simpl; [done|].
  destruct (body s x); simpl; [apply IH|done].
Qed.

Lemma comprehension_Ok {A B} (f : A → res B) l ys :
  comprehension f l = Ok ys ↔ Forall2 (λ x y, f x = Ok y) l ys.
Proof.
  revert ys. induction l as [|x l IH]; intros ys; simpl.
  - split; [intros [= <-]; constructor|by inv 1].
  - split.
    + destruct (f x) as [y|e] eqn:Hx; simpl; [|done].
      destruct (comprehension f l) as [ys'|e] eqn:Hl; simpl; [|done].
      intros [= <-]. constructor; [done|by apply IH].
    + intros HF. inversion HF as [|? y ? ys' Hy Hys]; subst.
      rewrite Hy. simpl. apply IH in Hys. rewrite Hys. done.
Qed.

Lemma comprehension_all_Ok {A B} (f : A → res B) l :
  Forall (λ x, is_Ok (f x)) l → is_Ok (comprehension f l).
Proof.
  induction 1 as [|x l [y Hy] _ [ys Hys]]; simpl; [by eexists|].
  rewrite Hy. simpl. rewrite Hys. simpl. by eexists.
Qed.

Lemma comprehension_ext {A B} (f g : A → res B) l :
  Forall (λ x, f x = g x) l → comprehension f l = comprehension g l.
Proof. induction 1 as [|x l Hx _ IH]; simpl; [done|]. by rewrite Hx, IH. Qed.

End PyFacts.
Import PyFacts.

(** ** The samplers *)

Module SamplerFacts.

Lemma length_diff a : length (diff a) = pred (length a).
Proof.
  induction a as [|x [|y a] IH]; simpl in *; [done..|]. by rewrite IH.
Qed.

Lemma linspace_round_length stop n l :
  linspace_round stop n = Ok l → length l = Z.to_nat n.
Proof.
  unfold linspace_round. repeat case_decide; intros [= <-]; simpl.
  - subst. done.
  - by rewrite length_fmap, length_seq.
Qed.

(** With a cap of at least the length, the list comes back as it is. *)
Lemma sample_uniform_all {A} (lst : list A) (n : Z) :
  Z.of_nat (length lst) ≤ n → _sample_uniform lst n = Ok lst.
Proof. intros Hn. unfold _sample_uniform. by rewrite decide_True. Qed.


(** With a cap of three or more, below the length, the assertion itself
    raises: it takes the truth value of an array of two or more booleans. *)
Lemma sample_uniform_raises {A} (lst : list A) (n : Z) :
  3 ≤ n → n < Z.of_nat (length lst) →
  _sample_uniform lst n = Raise AmbiguousTruthValue.
Proof.
  intros Hn Hlen. unfold _sample_uniform. rewrite decide_False by lia.
  destruct (linspace_round (Z.of_nat (length lst) - 1) n) as [ind|e] eqn:Hind.
  - apply linspace_round_length in Hind. simpl.
    pose proof (length_diff ind) as Hd.
    destruct (diff ind) as [|d1 [|d2 ds]] eqn:Hdiff; simpl in Hd; [lia..|done].
  - unfold linspace_round in Hind. repeat case_decide; try done; lia.
Qed.


(** C3, at the input where the code departs from it: four items and a cap
    of three.  The sampler returns no sample; the assertion of line 100
    raises the ValueError of an ambiguous truth value. *)
Theorem sample_uniform_three_of_four {A} (a b c d : A) :
  _sample_uniform [a; b; c; d] 3 = Raise AmbiguousTruthValue.
Proof. by apply sample_uniform_raises. Qed.

(** The same through [extract_features]: a directory of four images, a
    cap of three and the [uniform] sampler. *)
Example uniform_three_of_four_images :
  let C := Toy.collaborators {[ "imgs" := ["a.jpg"; "b.jpg"; "c.jpg"; "d.jpg"] ]} in
  @extract_features C (DirNames ["imgs"]) (Some 3) "uniform" DEFAULT_EXTENSIONS
    (Modes IMREAD_MODES) ParFalse None () (@World C 0%nat [])
  = (Raise AmbiguousTruthValue, @World C 0%nat []).
Proof. vm_compute. reflexivity. Qed.

End SamplerFacts.

(** ** Sampling inside [extract_features] *)

Module SelectFacts.
Section select_facts.
Context `{Collaborators}.

Lemma bind_lift {A B} (r : res A) (k : A → M B) w :
  (lift r ≫= k) w = match r with Ok a => k a w | Raise e => (Raise e, w) end.
Proof. unfold mbind, M_bind, lift. by destruct r. Qed.

Lemma bind_M {A B} (m : M A) (k : A → M B) w :
  (m ≫= k) w = match m w with (Ok a, w') => k a w' | (Raise e, w') => (Raise e, w') end.
Proof. done. Qed.

Lemma world_eta w : World (w_rng w) (w_pools w) = w.
Proof. by destruct w. Qed.

Lemma choose_sample_unknown n name :
  name ≠ "first" → name ≠ "random" → name ≠ "uniform" →
  choose_sample (Some n) name = Raise (KeyError name).
Proof.
  intros. unfold choose_sample, SAMPLERS.
  rewrite !lookup_insert_ne by done. by rewrite lookup_singleton_ne.
Qed.

Lemma choose_sample_first n :
  choose_sample (Some n) "first" = Ok (λ x, with_rng (sample_first x n)).
Proof. unfold choose_sample, SAMPLERS. by rewrite lookup_insert_eq. Qed.

Lemma slice_to_nonneg {A} (l : list A) n : 0 ≤ n → slice_to l n = take (Z.to_nat n) l.
Proof. intros. unfold slice_to. by rewrite decide_True. Qed.

Lemma one_dir_images d (images : list (string * string)) :
  Forall (λ p, p.1 = d) images → images = (d,.) <$> images.*2.
Proof.
  induction 1 as [|[a b] l Hd _ IH]; csimpl in *; [done|]. subst. by f_equal.
Qed.

(** C6, amended: the [first] sampler is given the label's (directory,
    file name) pairs sorted as pairs, by directory and then by file name,
    and returns the first [n] of them, for any cap [0 <= n].  When all the
    images of the label come from one directory, these are the [n]
    lexicographically smallest file names. *)
Theorem first_sampler_takes_sorted_pairs (n : Z) (label : string)
    (images : list (string * string)) (w : world) :
  0 ≤ n →
  ∃ sample,
    choose_sample (Some n) "first" = Ok sample ∧
    let chosen := take (Z.to_nat n) (sorted_pairs images) in
    select_label sample (label, images) w = (Ok (row label <$> chosen), w) ∧
    StronglySorted pair_le (sorted_pairs images) ∧
    sorted_pairs images ≡ₚ images ∧
    (∀ d, Forall (λ p, p.1 = d) images →
          chosen.*2 = take (Z.to_nat n) (sorted_str images.*2)).
Proof.
  intros Hn. eexists. split.
  { apply choose_sample_first. }
  simpl. split; [|split; [apply sorted_pairs_sorted|split; [apply sorted_pairs_perm|]]].
  - unfold select_label. rewrite bind_M. unfold with_rng, sample_first.
    rewrite world_eta. by rewrite slice_to_nonneg.
  - intros d Hd. rewrite (one_dir_images d images Hd) at 1.
    rewrite sorted_pairs_one_dir, <-fmap_take, <-list_fmap_compose.
    by rewrite list_fmap_id.
Qed.

(** C7, amended: with a sampler name outside the table, a call that sets
    a cap fails with the KeyError of that name once the directories have
    been resolved, before anything is sampled, and leaves the world as it
    was; an error of the resolution comes first; a call without a cap never
    looks the name up and runs as it does with any other name. *)
Theorem unknown_sampler_needs_cap (dirs : dirs_arg) (name : string)
    (ext : gset string) (modes : modes_arg) (par : parallel_arg)
    (size : option (option Z * option Z)) (kw : kwargs) (w : world) :
  name ≠ "first" → name ≠ "random" → name ≠ "uniform" →
  (∀ n ims, resolve ext (label_dirs dirs) = Ok ims →
     extract_features dirs (Some n) name ext modes par size kw w
     = (Raise (KeyError name), w)) ∧
  (∀ cap e, resolve ext (label_dirs dirs) = Raise e →
     extract_features dirs cap name ext modes par size kw w = (Raise e, w)) ∧
  (∀ other, extract_features dirs None name ext modes par size kw w
     = extract_features dirs None other ext modes par size kw w).
Proof.
  intros H1 H2 H3. split; [|split].
  - intros n ims Hres. unfold extract_features. rewrite bind_lift, Hres.
    rewrite bind_lift. by rewrite choose_sample_unknown.
  - intros cap e Hres. unfold extract_features. by rewrite bind_lift, Hres.
  - intros other. done.
Qed.
End select_facts.

Lemma first_sampler_takes_sorted_pairs_witness :
  0 ≤ 3 ∧
  ∃ sample,
    @choose_sample (Toy.collaborators ∅) (Some 3) "first" = Ok sample ∧
    let images := ("L",.) <$> ten in
    let chosen := take (Z.to_nat 3) (sorted_pairs images) in
    select_label sample ("L", images) (@World (Toy.collaborators ∅) 0%nat [])
      = (Ok (row "L" <$> chosen), @World (Toy.collaborators ∅) 0%nat []) ∧
    StronglySorted pair_le (sorted_pairs images) ∧
    sorted_pairs images ≡ₚ images ∧
    (∀ d, Forall (λ p, p.1 = d) images →
          chosen.*2 = take (Z.to_nat 3) (sorted_str images.*2)).
Proof.
  split; [lia|].
  apply (@first_sampler_takes_sorted_pairs (Toy.collaborators ∅) 3 "L"
           (("L",.) <$> ten) (@World (Toy.collaborators ∅) 0%nat [])).
  lia.
Defined.

(** On the ten images and a cap of three, the three smallest names. *)
Example first_three_of_ten :
  (take 3 (sorted_pairs (("L",.) <$> ten))).*2 = ["a.jpg"; "b.jpg"; "c.jpg"].
Proof. vm_compute. reflexivity. Qed.

(** C6 as stated fails on a label fed by two directories: the pairs are
    sorted by directory first, so the cap of one keeps [z.jpg] of directory
    [a] although [a.jpg] of directory [b] is the smallest file name. *)
Lemma first_sampler_not_by_filename :
  let C := Toy.collaborators {[ "a" := ["z.jpg"]; "b" := ["a.jpg"] ]} in
  ∃ F w,
    @extract_features C (DirLabels {[ "a" := "L"; "b" := "L" ]}) (Some 1) "first"
      DEFAULT_EXTENSIONS (Modes IMREAD_MODES) ParFalse None () (@World C 0%nat [])
    = (Ok F, w) ∧
    names F = ["z.jpg"] ∧
    names F ≠ take 1 (sorted_str ["z.jpg"; "a.jpg"]).
Proof.
  simpl. eexists _, _. split; [vm_compute; reflexivity|]. split; [reflexivity|].
  vm_compute. discriminate.
Qed.

Lemma unknown_sampler_needs_cap_witness :
  let C := Toy.collaborators {[ "one" := ["c.jpg"; "a.jpg"] ]} in
  "bogus" ≠ "first" ∧ "bogus" ≠ "random" ∧ "bogus" ≠ "uniform" ∧
  @extract_features C (DirNames ["one"]) (Some 1) "bogus" DEFAULT_EXTENSIONS
    (Modes IMREAD_MODES) ParTrue None () (@World C 0%nat [])
  = (Raise (KeyError "bogus"), @World C 0%nat []).
Proof.
  simpl. split; [done|]. split; [done|]. split; [done|].
  refine (proj1 (@unknown_sampler_needs_cap (Toy.collaborators _) (DirNames ["one"]) "bogus"
            DEFAULT_EXTENSIONS (Modes IMREAD_MODES) ParTrue None () _ _ _ _) 1 _ _);
    [done..|vm_compute; reflexivity].
Defined.

(** C7 as stated fails when no cap is set: the unknown name is never
    looked up and the call returns its features. *)
Lemma unknown_sampler_without_cap :
  let C := Toy.collaborators {[ "one" := ["c.jpg"; "a.jpg"] ]} in
  ("bogus" ∉ ["first"; "random"; "uniform"]) ∧
  @extract_features C (DirNames ["one"]) None "bogus" DEFAULT_EXTENSIONS
    (Modes IMREAD_MODES) ParFalse None () (@World C 0%nat [])
  = (Ok (@mkFeatures C ["one"; "one"] ["a.jpg"; "c.jpg"] [[9]; [9]] [[9; 7]; [9; 7]]),
     @World C 0%nat []).
Proof.
  simpl. split; [|vm_compute; reflexivity].
  intros Hin. repeat (apply elem_of_cons in Hin as [?|Hin]; [done|]).
  by apply elem_of_nil in Hin.
Qed.

End SelectFacts.

(** ** Resolution of the directories *)

Module ResolveFacts.

Lemma first_dup_ext {K} `{EqDecision K} (P Q : K → Prop)
    `{∀ k, Decision (P k)} `{∀ k, Decision (Q k)} (ks : list K) :
  (∀ k, P k ↔ Q k) → first_dup P ks = first_dup Q ks.
Proof.
  revert P Q H H0. induction ks as [|k ks IH]; intros P Q ?? HPQ; simpl; [done|].
  destruct (decide (P k)) as [HP|HP], (decide (Q k)) as [HQ|HQ];
    try done; try (by apply HPQ in HP); try (by apply HPQ in HQ).
  apply IH. intros k'. by rewrite HPQ.
Qed.

Lemma first_dup_app {K} `{EqDecision K} (P : K → Prop) `{∀ k, Decision (P k)}
    (ks1 ks2 : list K) :
  first_dup P (ks1 ++ ks2) =
    match first_dup P ks1 with
    | Some k => Some k
    | None => first_dup (λ k, k ∈ ks1 ∨ P k) ks2
    end.
Proof.
  revert P H. induction ks1 as [|k ks1 IH]; intros P ?; simpl.
  - apply first_dup_ext. intros k. rewrite elem_of_nil. naive_solver.
  - destruct (decide (P k)); [done|]. rewrite IH.
    destruct (first_dup _ ks1); [done|].
    apply first_dup_ext. intros k'. rewrite elem_of_cons. naive_solver.
Qed.

Lemma first_dup_None {K} `{EqDecision K} (P : K → Prop) `{∀ k, Decision (P k)}
    (ks : list K) :
  first_dup P ks = None ↔ NoDup ks ∧ Forall (λ k, ¬ P k) ks.
Proof.
  revert P H. induction ks as [|k ks IH]; intros P ?; simpl.
  - split; [intros _; split; constructor|done].
  - destruct (decide (P k)) as [HP|HP].
    + split; [done|]. intros [_ HF]. by inv HF.
    + rewrite IH, NoDup_cons, Forall_cons, !Forall_forall. naive_solver.
Qed.

(** A key that [first_dup] returns is in the list, and was seen before it. *)
Lemma first_dup_Some {K} `{EqDecision K} (P : K → Prop) `{∀ k, Decision (P k)}
    (ks : list K) k :
  first_dup P ks = Some k →
  ∃ ks1 ks2, ks = ks1 ++ k :: ks2 ∧ (P k ∨ k ∈ ks1).
Proof.
  revert P H. induction ks as [|k0 ks IH]; intros P ?; simpl; [done|].
  destruct (decide (P k0)) as [HP|HP].
  - intros [= <-]. exists [], ks. auto.
  - intros (ks1 & ks2 & -> & Hk)%IH. exists (k0 :: ks1), ks2. split; [done|].
    rewrite elem_of_cons. naive_solver.
Qed.

Section resolve_facts.
Context `{Collaborators} (ext : gset string).

Lemma getitem_rsplit1 fname :
  getitem (rsplit1 dot fname) 1 =
    match extension fname with Some e => Ok e | None => Raise IndexError end.
Proof.
  unfold getitem, rsplit1, extension.
  by destruct (rsplit_last dot fname) as [[a b]|].
Qed.

Lemma scan_file_no_dot d lab st fname :
  ¬ has_dot fname → scan_file ext d lab st fname = Raise IndexError.
Proof.
  intros Hd. unfold scan_file. rewrite getitem_rsplit1.
  destruct (extension fname) eqn:E; [|done]. destruct Hd. unfold has_dot. by rewrite E.
Qed.

Lemma scan_file_skip d lab st fname :
  has_dot fname → ¬ qualifies ext fname → scan_file ext d lab st fname = Ok st.
Proof.
  intros [e He] Hq. unfold scan_file. rewrite getitem_rsplit1, He. simpl.
  rewrite decide_False; [done|]. intros ?. apply Hq. by exists e.
Qed.

Lemma scan_file_dup d lab st fname :
  qualifies ext fname → seen_key st (lab, fname) →
  scan_file ext d lab st fname = Raise (DuplicateImage fname lab).
Proof.
  intros (e & He & Hin) Hs. unfold scan_file. rewrite getitem_rsplit1, He. simpl.
  rewrite decide_True by done. by rewrite decide_True.
Qed.

Lemma scan_file_add d lab st fname :
  qualifies ext fname → ¬ seen_key st (lab, fname) →
  scan_file ext d lab st fname = Ok (add_image d lab st fname).
Proof.
  intros (e & He & Hin) Hs. unfold scan_file. rewrite getitem_rsplit1, He. simpl.
  rewrite decide_True by done. by rewrite decide_False.
Qed.

Lemma seen_key_add d lab st fname k :
  seen_key (add_image d lab st fname) k ↔ k = (lab, fname) ∨ seen_key st k.
Proof.
  destruct k as [l f]. unfold seen_key, add_image. simpl.
  destruct (decide (l = lab)) as [->|Hne].
  - rewrite lookup_total_insert_eq. set_solver.
  - rewrite lookup_total_insert_ne by done. naive_solver.
Qed.

Lemma seen_key_foldl d lab st fnames k :
  seen_key (foldl (add_image d lab) st fnames) k ↔
    k ∈ (lab,.) <$> fnames ∨ seen_key st k.
Proof.
  revert st. induction fnames as [|f fs IH]; intros st; simpl.
  - rewrite elem_of_nil. naive_solver.
  - rewrite IH, seen_key_add. rewrite elem_of_cons. naive_solver.
Qed.

(** The inner loop, on a listing whose names all have a dot. *)
Lemma scan_files_dotted d lab fnames st :
  Forall has_dot fnames →
  for_each (scan_file ext d lab) st fnames =
    match first_dup (seen_key st) ((lab,.) <$> filter (qualifies ext) fnames) with
    | Some k => Raise (DuplicateImage k.2 k.1)
    | None => Ok (foldl (add_image d lab) st (filter (qualifies ext) fnames))
    end.
Proof.
  intros Hd. revert st. induction Hd as [|f fs Hf _ IH]; intros st; simpl; [done|].
  destruct (decide (qualifies ext f)) as [Hq|Hq].
  - rewrite filter_cons_True by done. simpl.
    destruct (decide (seen_key st (lab, f))) as [Hs|Hs].
    + by rewrite scan_file_dup.
    + rewrite scan_file_add by done. simpl. rewrite IH.
      rewrite (first_dup_ext (seen_key (add_image d lab st f))
                 (λ k', k' = (lab, f) ∨ seen_key st k')); [done|].
      intros k. apply seen_key_add.
  - rewrite filter_cons_False by done. rewrite scan_file_skip by done. simpl. apply IH.
Qed.

Lemma listing_Ok d l : os_listdir d = Ok l → listing d = l.
Proof. unfold listing. by intros ->. Qed.

Lemma scan_dir_Ok st d lab l :
  os_listdir d = Ok l →
  scan_dir ext st (d, lab) = for_each (scan_file ext d lab) st l.
Proof. unfold scan_dir. by intros ->. Qed.

Lemma add_entry_Ok st d lab l :
  os_listdir d = Ok l →
  add_entry ext st (d, lab) = foldl (add_image d lab) st (filter (qualifies ext) l).
Proof. intros Hl. unfold add_entry. simpl. by rewrite (listing_Ok _ _ Hl). Qed.

Lemma candidates_cons d lab es :
  candidates ext ((d, lab) :: es) =
    ((λ fname, (lab, d, fname)) <$> filter (qualifies ext) (listing d)) ++ candidates ext es.
Proof. done. Qed.

Lemma identity_candidates_entry d lab (fnames : list string) :
  identity <$> ((λ fname, (lab, d, fname)) <$> fnames) = (lab,.) <$> fnames.
Proof. by rewrite <-list_fmap_compose. Qed.

(** The outer loop, when every directory can be listed and every name
    has a dot: it stops at the first identity seen twice, and otherwise
    records every candidate. *)
Lemma scan_dirs_spec es st :
  listable_dotted es →
  for_each (scan_dir ext) st es =
    match first_dup (seen_key st) (identity <$> candidates ext es) with
    | Some k => Raise (DuplicateImage k.2 k.1)
    | None => Ok (foldl (add_entry ext) st es)
    end.
Proof.
  intros Hes. revert st. induction Hes as [|[d lab] es (l & Hl & Hdot) _ IH]; intros st.
  { done. }
  simpl in Hl.
  rewrite candidates_cons, fmap_app, identity_candidates_entry, first_dup_app.
  change (for_each (scan_dir ext) st ((d, lab) :: es))
    with (scan_dir ext st (d, lab) ≫= λ s', for_each (scan_dir ext) s' es).
  change (foldl (add_entry ext) st ((d, lab) :: es))
    with (foldl (add_entry ext) (add_entry ext st (d, lab)) es).
  rewrite (scan_dir_Ok _ _ _ _ Hl), (add_entry_Ok _ _ _ _ Hl), (listing_Ok _ _ Hl).
  rewrite scan_files_dotted by done.
  destruct (first_dup (seen_key st) _) as [k|]; [done|].
  cbn [mbind res_bind]. rewrite IH.
  rewrite (first_dup_ext (seen_key (foldl (add_image d lab) st (filter (qualifies ext) l)))
             (λ k, k ∈ (lab,.) <$> filter (qualifies ext) l ∨ seen_key st k)); [done|].
  intros k. apply seen_key_foldl.
Qed.

Lemma ims_add_image d lab st fname l :
  ims_by_label (add_image d lab st fname) !!! l =
    ims_by_label st !!! l ++ (if decide (lab = l) then [(d, fname)] else []).
Proof.
  unfold add_image. simpl. case_decide as Hl.
  - subst. by rewrite lookup_total_insert_eq.
  - rewrite lookup_total_insert_ne by done. by rewrite app_nil_r.
Qed.

Lemma ims_foldl_add_image d lab st fnames l :
  ims_by_label (foldl (add_image d lab) st fnames) !!! l =
    ims_by_label st !!! l ++ images_of l ((λ fname, (lab, d, fname)) <$> fnames).
Proof.
  revert st. induction fnames as [|f fs IH]; intros st; simpl.
  - by rewrite app_nil_r.
  - rewrite IH, ims_add_image. unfold images_of. simpl.
    case_decide; simpl; by rewrite <-?app_assoc.
Qed.

Lemma images_of_app l c1 c2 : images_of l (c1 ++ c2) = images_of l c1 ++ images_of l c2.
Proof. unfold images_of. by rewrite omap_app. Qed.

Lemma ims_foldl_add_entry es st l :
  ims_by_label (foldl (add_entry ext) st es) !!! l =
    ims_by_label st !!! l ++ images_of l (candidates ext es).
Proof.
  revert st. induction es as [|[d lab] es IH]; intros st.
  - simpl. by rewrite app_nil_r.
  - change (foldl (add_entry ext) st ((d, lab) :: es))
      with (foldl (add_entry ext) (add_entry ext st (d, lab)) es).
    rewrite IH. unfold add_entry. cbn [fst snd]. rewrite ims_foldl_add_image.
    by rewrite candidates_cons, images_of_app, app_assoc.
Qed.

Lemma elem_of_images_of l d f cands :
  (d, f) ∈ images_of l cands ↔ (l, d, f) ∈ cands.
Proof.
  unfold images_of. rewrite list_elem_of_omap. split.
  - intros ([[l' d'] f'] & Hin & Hc). simpl in Hc. case_decide; naive_solver.
  - intros Hin. exists (l, d, f). split; [done|]. simpl. by rewrite decide_True.
Qed.

Lemma images_of_cons l c cands :
  images_of l (c :: cands) =
    (if decide (c.1.1 = l) then [(c.1.2, c.2)] else []) ++ images_of l cands.
Proof. unfold images_of. simpl. by case_decide. Qed.

Lemma NoDup_images_of l cands : NoDup cands → NoDup (images_of l cands).
Proof.
  induction 1 as [|[[l' d] f] cands Hnin _ IH]; [constructor|].
  rewrite images_of_cons. simpl. case_decide; [|done]. subst. simpl.
  constructor; [|done]. by rewrite elem_of_images_of.
Qed.

Lemma elem_of_resolved_images (ims : gmap string (list (string * string))) l d f :
  (l, d, f) ∈ resolved_images ims ↔ (d, f) ∈ ims !!! l.
Proof.
  unfold resolved_images. rewrite list_elem_of_bind. split.
  - intros ([l' images] & Hin & Hm). apply list_elem_of_fmap in Hin as ([d' f'] & [= -> -> ->] & Hin).
    apply elem_of_map_to_list in Hm. by rewrite (lookup_total_correct _ _ _ Hm).
  - intros Hin. rewrite lookup_total_alt in Hin.
    destruct (ims !! l) as [images|] eqn:Hl; simpl in Hin; [|by apply elem_of_nil in Hin].
    exists (l, images). split; [|by apply elem_of_map_to_list].
    apply list_elem_of_fmap. by exists (d, f).
Qed.

Lemma NoDup_resolved_images (ims : gmap string (list (string * string))) :
  (∀ l, NoDup (ims !!! l)) → NoDup (resolved_images ims).
Proof.
  intros Hnd. unfold resolved_images. apply NoDup_bind.
  - intros [l1 i1] [l2 i2] [[l d] f] H1 H2 Hin1 Hin2.
    apply list_elem_of_fmap in Hin1 as ([d1 f1] & [= -> -> ->] & Hin1).
    apply list_elem_of_fmap in Hin2 as ([d2 f2] & [= -> -> ->] & Hin2).
    apply elem_of_map_to_list in H1, H2. by simplify_eq.
  - intros [l images] Hin. apply elem_of_map_to_list in Hin.
    apply NoDup_fmap_2; [by intros [??] [??] [= -> ->]|].
    specialize (Hnd l). by rewrite (lookup_total_correct _ _ _ Hin) in Hnd.
  - apply NoDup_map_to_list.
Qed.

(** X12: what the resolution does when every directory can be listed
    and every listed name has a dot.  If no identity (label, file name)
    occurs twice among the candidates, the result holds each candidate
    exactly once, each label's images in the order of the scan.
    Otherwise the duplicate-image error names an identity that occurs
    twice. *)
Theorem resolve_spec (dirs : gmap string string) :
  listable_dotted (map_to_list dirs) →
  let cands := candidates ext (map_to_list dirs) in
  (NoDup (identity <$> cands) →
     ∃ ims, resolve ext dirs = Ok ims ∧
            (∀ l, ims !!! l = images_of l cands) ∧
            NoDup (resolved_images ims) ∧ resolved_images ims ≡ₚ cands) ∧
  (¬ NoDup (identity <$> cands) →
     ∃ fname label c1 c2 c3,
       resolve ext dirs = Raise (DuplicateImage fname label) ∧
       identity <$> cands = c1 ++ (label, fname) :: c2 ++ (label, fname) :: c3).
Proof.
  intros Hok cands. unfold resolve. rewrite scan_dirs_spec by done. fold cands.
  destruct (first_dup _ (identity <$> cands)) as [[lab f]|] eqn:Hfd.
  - split.
    + intros Hnd. assert (first_dup (seen_key (Resolved ∅ ∅)) (identity <$> cands) = None) as E.
      { apply first_dup_None. split; [done|]. apply Forall_forall. intros [l x] _.
        unfold seen_key. simpl. rewrite lookup_total_empty. set_solver. }
      congruence.
    + intros _. apply first_dup_Some in Hfd as (ks1 & ks2 & Hks & [Hs|Hin]).
      { unfold seen_key in Hs. simpl in Hs. rewrite lookup_total_empty in Hs. set_solver. }
      apply list_elem_of_split in Hin as (c1 & c2 & ->).
      exists f, lab, c1, c2, ks2. split; [done|]. by rewrite Hks, <-app_assoc.
  - apply first_dup_None in Hfd as [Hnd _]. split; [|done]. intros _.
    eexists. split; [done|]. simpl.
    assert (∀ l, ims_by_label (foldl (add_entry ext) (Resolved ∅ ∅) (map_to_list dirs)) !!! l
                 = images_of l cands) as Hims.
    { intros l. rewrite ims_foldl_add_entry. simpl. by rewrite lookup_total_empty. }
    assert (NoDup cands) as Hndc by (by eapply NoDup_fmap_1).
    assert (NoDup (resolved_images
              (ims_by_label (foldl (add_entry ext) (Resolved ∅ ∅) (map_to_list dirs))))) as Hndr.
    { apply NoDup_resolved_images. intros l. rewrite Hims. by apply NoDup_images_of. }
    split; [done|]. split; [done|].
    apply NoDup_Permutation; [done..|].
    intros [[l d] f]. by rewrite elem_of_resolved_images, Hims, elem_of_images_of.
Qed.

(** *** Listings with a name that has no dot *)

Lemma split_first_dotless (l : list string) :
  Forall has_dot l ∨
  ∃ pre x post, l = pre ++ x :: post ∧ Forall has_dot pre ∧ ¬ has_dot x.
Proof.
  induction l as [|f l [IH|(pre & x & post & -> & Hpre & Hx)]].
  - left. constructor.
  - destruct (decide (has_dot f)); [left; by constructor|].
    right. exists [], f, l. by repeat split.
  - destruct (decide (has_dot f)).
    + right. exists (f :: pre), x, post. repeat split; [|done]. by constructor.
    + right. exists [], f, (pre ++ x :: post). by repeat split.
Qed.

Lemma os_listdir_Raise d e : os_listdir d = Raise e → e = OSError d.
Proof. unfold os_listdir. destruct (directory d); congruence. Qed.

Lemma for_each_cons {S A} (body : S → A → res S) s x l :
  for_each body s (x :: l) = body s x ≫= λ s', for_each body s' l.
Proof. done. Qed.

(** The inner loop on fresh identities: it records every qualifying
    name, or stops with IndexError at the first name without a dot. *)
Lemma scan_files_fresh d lab fnames st :
  NoDup fnames → (∀ f, f ∈ fnames → ¬ seen_key st (lab, f)) →
  (Forall has_dot fnames ∧
   for_each (scan_file ext d lab) st fnames
     = Ok (foldl (add_image d lab) st (filter (qualifies ext) fnames))) ∨
  ((∃ f, f ∈ fnames ∧ ¬ has_dot f) ∧
   for_each (scan_file ext d lab) st fnames = Raise IndexError).
Proof.
  intros Hnd Hfresh.
  assert (∀ l, NoDup l → (∀ f, f ∈ l → ¬ seen_key st (lab, f)) → Forall has_dot l →
            for_each (scan_file ext d lab) st l
            = Ok (foldl (add_image d lab) st (filter (qualifies ext) l))) as Hdotted.
  { intros l Hl Hfr Hdot. rewrite scan_files_dotted by done.
    assert (first_dup (seen_key st) ((lab,.) <$> filter (qualifies ext) l) = None) as ->; [|done].
    apply first_dup_None. split.
    - apply NoDup_fmap_2; [by intros ?? [= ->]|]. by apply NoDup_filter.
    - apply Forall_forall. intros k (f & -> & Hf%list_elem_of_filter)%list_elem_of_fmap.
      apply Hfr, Hf. }
  destruct (split_first_dotless fnames) as [Hdot|(pre & x & post & -> & Hpre & Hx)].
  - left. split; [done|]. by apply Hdotted.
  - right. split.
    { exists x. split; [|done]. rewrite elem_of_app, elem_of_cons. auto. }
    rewrite for_each_app, Hdotted; [| |  |done].
    + cbn [mbind res_bind]. rewrite for_each_cons. by rewrite scan_file_no_dot.
    + by apply NoDup_app in Hnd as (? & _ & _).
    + intros f Hf. apply Hfresh. rewrite elem_of_app. auto.
Qed.

(** The outer loop over directories with distinct labels, none seen
    before, whose listings repeat no name: it records every candidate,
    or stops with IndexError or OSError. *)
Lemma scan_dirs_fresh es st :
  (∀ d l, directory d = Some l → NoDup l) →
  NoDup es.*2 →
  (∀ lab f, lab ∈ es.*2 → ¬ seen_key st (lab, f)) →
  (listable_dotted es ∧
   for_each (scan_dir ext) st es = Ok (foldl (add_entry ext) st es)) ∨
  (¬ listable_dotted es ∧
   ∃ e, for_each (scan_dir ext) st es = Raise e ∧ (e = IndexError ∨ ∃ d, e = OSError d)).
Proof.
  intros Hfs. revert st. induction es as [|[d lab] es IH]; intros st Hnd Hfresh.
  { left. split; [constructor|done]. }
  apply NoDup_cons in Hnd as [Hlab Hnd]. rewrite for_each_cons.
  destruct (os_listdir d) as [l|e] eqn:Hl.
  - assert (NoDup l) as Hndl.
    { unfold os_listdir in Hl. destruct (directory d) eqn:Hd; [|done].
      injection Hl as <-. by eapply Hfs. }
    rewrite (scan_dir_Ok _ _ _ _ Hl).
    destruct (scan_files_fresh d lab l st Hndl) as [[Hdot ->]|[(f & Hf & Hnf) ->]].
    { intros f _. apply Hfresh. simpl. left. }
    + cbn [mbind res_bind].
      destruct (IH (foldl (add_image d lab) st (filter (qualifies ext) l)) Hnd)
        as [[Hes ->]|[Hes (e & -> & He)]].
      { intros lab' f Hlab'. rewrite seen_key_foldl.
        intros [(f' & [= -> ->] & _)%list_elem_of_fmap|Hs]; [done|].
        eapply Hfresh; [|done]. simpl. by right. }
      * left. split.
        -- constructor; [|done]. exists l. auto.
        -- change (foldl (add_entry ext) st ((d, lab) :: es))
             with (foldl (add_entry ext) (add_entry ext st (d, lab)) es).
           by rewrite (add_entry_Ok _ _ _ _ Hl).
      * right. split; [by inv 1|]. eauto.
    + right. split; [|by eauto].
      inv 1 as [|?? (l' & Hl' & Hdot')]. simpl in Hl'. rewrite Hl in Hl'.
      injection Hl' as <-. rewrite Forall_forall in Hdot'. by apply Hnf, Hdot'.
  - right. split.
    + inv 1 as [|?? (l' & Hl' & _)]. simpl in Hl'. congruence.
    + exists e. unfold scan_dir. rewrite Hl. split; [done|].
      right. exists d. by apply os_listdir_Raise.
Qed.

Lemma images_of_entry l lab d (fnames : list string) :
  images_of l ((λ fname, (lab, d, fname)) <$> fnames) =
    if decide (lab = l) then (d,.) <$> fnames else [].
Proof.
  induction fnames as [|f fs IH]; [by case_decide|].
  rewrite fmap_cons, images_of_cons, IH. simpl. by case_decide.
Qed.

Lemma images_of_own_dirs es d :
  Forall (λ e, e.1 = e.2) es → NoDup es.*1 →
  images_of d (candidates ext es) =
    if decide (d ∈ es.*1) then (d,.) <$> filter (qualifies ext) (listing d) else [].
Proof.
  induction 1 as [|[d' lab] es Heq _ IH]; intros Hnd.
  { rewrite decide_False; [done|]. by apply not_elem_of_nil. }
  simpl in Heq. subst lab. rewrite fmap_cons in Hnd. apply NoDup_cons in Hnd as [Hd' Hnd].
  rewrite candidates_cons, images_of_app, images_of_entry, IH by done.
  rewrite fmap_cons. cbn [fst].
  destruct (decide (d' = d)) as [->|Hne].
  - rewrite (decide_False (P := d ∈ es.*1)) by done.
    rewrite decide_True by left. by rewrite app_nil_r.
  - simpl. destruct (decide (d ∈ es.*1)).
    + rewrite decide_True; [done|]. by right.
    + rewrite decide_False; [done|]. rewrite elem_of_cons. naive_solver.
Qed.

Lemma label_dirs_lookup (l : list string) d :
  label_dirs (DirNames l) !! d = if decide (d ∈ l) then Some d else None.
Proof.
  unfold label_dirs.
  assert (∀ m : gmap string string,
            foldl (λ m dirname, <[dirname := dirname]> m) m l !! d
            = if decide (d ∈ l) then Some d else m !! d) as Hgen.
  { induction l as [|x l IH]; intros m; cbn [foldl].
    - rewrite decide_False; [done|]. by apply not_elem_of_nil.
    - rewrite IH. destruct (decide (d ∈ l)).
      + rewrite decide_True; [done|]. by right.
      + destruct (decide (d = x)) as [->|].
        * rewrite decide_True by left. by rewrite lookup_insert_eq.
        * rewrite decide_False by (rewrite elem_of_cons; naive_solver).
          by rewrite lookup_insert_ne. }
  rewrite Hgen. by rewrite lookup_empty.
Qed.

Lemma label_dirs_entries (l : list string) :
  Forall (λ e, e.1 = e.2) (map_to_list (label_dirs (DirNames l))).
Proof.
  apply Forall_forall. intros [d lab] Hin. apply elem_of_map_to_list in Hin.
  rewrite label_dirs_lookup in Hin. case_decide; by simplify_eq.
Qed.

(** C10: given as an iterable, the directories become a dict with one
    entry per distinct path, so a path listed twice is resolved once;
    the resolution then never raises the duplicate-image error (the
    listing of a directory repeats no name), and a resolution that
    succeeds holds, for each directory, each of its qualifying images
    exactly once. *)
Theorem iterable_dirs_collapse (l : list string) :
  (∀ d fnames, directory d = Some fnames → NoDup fnames) →
  let dirs := label_dirs (DirNames l) in
  (∀ d, dirs !! d = if decide (d ∈ l) then Some d else None) ∧
  dirs = label_dirs (DirNames (remove_dups l)) ∧
  map_to_list dirs ≡ₚ (λ d, (d, d)) <$> remove_dups l ∧
  (∀ fname label, resolve ext dirs ≠ Raise (DuplicateImage fname label)) ∧
  (∀ ims, resolve ext dirs = Ok ims →
     (∀ d, ims !!! d =
             if decide (d ∈ l) then (d,.) <$> filter (qualifies ext) (listing d) else []) ∧
     NoDup (resolved_images ims)).
Proof.
  intros Hfs dirs.
  assert (NoDup (map_to_list dirs).*1) as Hkeys by apply NoDup_fst_map_to_list.
  assert ((map_to_list dirs).*2 = (map_to_list dirs).*1) as Hvals.
  { apply list_fmap_ext. intros i [d lab] Hin. simpl.
    pose proof (label_dirs_entries l) as Hent. rewrite Forall_forall in Hent.
    symmetry. by apply (Hent (d, lab)), list_elem_of_lookup_2 with i. }
  split; [apply label_dirs_lookup|]. split; [|split].
  { apply map_eq. intros d. unfold dirs. rewrite !label_dirs_lookup.
    destruct (decide (d ∈ l)).
    - rewrite decide_True; [done|]. by apply elem_of_remove_dups.
    - rewrite decide_False; [done|]. by rewrite elem_of_remove_dups. }
  { apply NoDup_Permutation.
    - apply NoDup_map_to_list.
    - apply NoDup_fmap_2; [by intros ?? [= ->]|]. apply NoDup_remove_dups.
    - intros [d lab]. rewrite elem_of_map_to_list. unfold dirs.
      rewrite label_dirs_lookup, list_elem_of_fmap.
      setoid_rewrite elem_of_remove_dups. case_decide; naive_solver. }
  destruct (scan_dirs_fresh (map_to_list dirs) (Resolved ∅ ∅) Hfs) as [[Hok Hr]|[_ (e & Hr & He)]].
  { by rewrite Hvals. }
  { intros lab f _. unfold seen_key. simpl. rewrite lookup_total_empty. set_solver. }
  - unfold resolve. rewrite Hr. cbn [mbind res_bind]. split; [done|].
    intros ims [= <-]. split.
    + intros d. rewrite ims_foldl_add_entry. simpl. rewrite lookup_total_empty. simpl.
      rewrite images_of_own_dirs by (done || apply label_dirs_entries).
      destruct (decide (d ∈ l)) as [Hd|Hd].
      * rewrite decide_True; [done|]. apply list_elem_of_fmap. exists (d, d). split; [done|].
        apply elem_of_map_to_list. unfold dirs. rewrite label_dirs_lookup. by rewrite decide_True.
      * rewrite decide_False; [done|].
        intros ([d' lab] & -> & Hin)%list_elem_of_fmap. apply elem_of_map_to_list in Hin.
        unfold dirs in Hin. rewrite label_dirs_lookup in Hin. simpl in Hd.
        case_decide; by simplify_eq.
    + apply NoDup_resolved_images. intros d. rewrite ims_foldl_add_entry. simpl.
      rewrite lookup_total_empty. simpl.
      rewrite images_of_own_dirs by (done || apply label_dirs_entries).
      case_decide; [|constructor].
      apply NoDup_fmap_2; [by intros ?? [= ->]|]. apply NoDup_filter.
      unfold listing, os_listdir. destruct (directory d) eqn:Hd; [by eapply Hfs|constructor].
  - unfold resolve. rewrite Hr. cbn [mbind res_bind]. split; [|done].
    intros f lab. destruct He as [->|[d ->]]; done.
Qed.

(** C5, where the code departs from it: a directory whose listing holds
    a name without a dot.  The resolution does not leave the name out: the
    index [1] of line 142 raises IndexError and the whole call fails. *)
Theorem dotless_name_raises_IndexError (d fname : string) (l : list string)
    (cap : option Z) (sname : string) (modes : modes_arg) (par : parallel_arg)
    (size : option (option Z * option Z)) (kw : kwargs) (w : world) :
  directory d = Some l → NoDup l → fname ∈ l → ¬ has_dot fname →
  resolve ext (label_dirs (DirNames [d])) = Raise IndexError ∧
  extract_features (DirNames [d]) cap sname ext modes par size kw w = (Raise IndexError, w).
Proof.
  intros Hd Hnd Hin Hdot.
  assert (resolve ext (label_dirs (DirNames [d])) = Raise IndexError) as Hr.
  { unfold resolve, label_dirs. simpl foldl. rewrite insert_empty, map_to_list_singleton.
    rewrite for_each_cons.
    assert (os_listdir d = Ok l) as Hl by (unfold os_listdir; by rewrite Hd).
    rewrite (scan_dir_Ok _ _ _ _ Hl).
    destruct (scan_files_fresh d d l (Resolved ∅ ∅) Hnd) as [[Hall _]|[_ ->]]; [| |done].
    - intros f _. unfold seen_key. simpl. rewrite lookup_total_empty. set_solver.
    - rewrite Forall_forall in Hall. destruct Hdot. by apply Hall. }
  split; [done|]. unfold extract_features.
  by rewrite SelectFacts.bind_lift, Hr.
Qed.
End resolve_facts.

Lemma resolve_spec_witness :
  let C := Toy.collaborators {[ "catA" := ["x.jpg"; "notes.txt"]; "catB" := ["y.png"; "x.jpg"] ]} in
  (∃ fname label,
     @resolve C DEFAULT_EXTENSIONS {[ "catA" := "cat"; "catB" := "cat" ]}
     = Raise (DuplicateImage fname label)) ∧
  (∃ ims,
     @resolve C DEFAULT_EXTENSIONS {[ "catA" := "cat"; "catB" := "dog" ]} = Ok ims ∧
     ims !!! "cat" = [("catA", "x.jpg")] ∧ ims !!! "dog" = [("catB", "y.png"); ("catB", "x.jpg")]).
Proof.
  intros C.
  assert (∀ la lb, @listable_dotted C (map_to_list ({[ "catA" := la; "catB" := lb ]}
                                                     : gmap string string))) as Hok.
  { intros la lb.
    assert (map_to_list ({[ "catA" := la; "catB" := lb ]} : gmap string string)
            = [("catA", la); ("catB", lb)]) as -> by (vm_compute; reflexivity).
    repeat (constructor; [eexists; split; [reflexivity|by_computation]|]). constructor. }
  split.
  - destruct (@resolve_spec C DEFAULT_EXTENSIONS {[ "catA" := "cat"; "catB" := "cat" ]}
                (Hok "cat" "cat")) as [_ Hdup].
    destruct Hdup as (fname & label & _ & _ & _ & Hr & _); [by_computation|].
    by exists fname, label.
  - destruct (@resolve_spec C DEFAULT_EXTENSIONS {[ "catA" := "cat"; "catB" := "dog" ]}
                (Hok "cat" "dog")) as [Hfine _].
    destruct Hfine as (ims & Hr & Hims & _); [by_computation|].
    exists ims. split; [exact Hr|]. rewrite !Hims. split; vm_compute; reflexivity.
Defined.

Lemma not_has_dot_README : ¬ has_dot "README".
Proof. by_computation. Qed.

Section duplicates.
Context `{Collaborators}.

(** C4, where the code departs from it: two directories of one label
    that both hold [x.jpg], and a name without a dot listed before it.
    The identity (cat, x.jpg) occurs twice among the candidates, but the
    call fails with the IndexError of line 142, in whichever order the two
    directories are visited, and not with the duplicate-image error. *)
Theorem dotless_name_hides_duplicate (cap : option Z) (sname : string)
    (modes : modes_arg) (par : parallel_arg) (size : option (option Z * option Z))
    (kw : kwargs) (w : world) :
  directory "catA" = Some ["README"; "x.jpg"] →
  directory "catB" = Some ["README"; "x.jpg"] →
  let dirs : gmap string string := {[ "catA" := "cat"; "catB" := "cat" ]} in
  identity <$> candidates DEFAULT_EXTENSIONS (map_to_list dirs)
    = [("cat", "x.jpg"); ("cat", "x.jpg")] ∧
  resolve DEFAULT_EXTENSIONS dirs = Raise IndexError ∧
  extract_features (DirLabels dirs) cap sname DEFAULT_EXTENSIONS modes par size kw w
    = (Raise IndexError, w).
Proof.
  intros HA HB dirs.
  assert (map_to_list dirs = [("catA", "cat"); ("catB", "cat")]) as Hdirs
    by (vm_compute; reflexivity).
  assert (filter (qualifies DEFAULT_EXTENSIONS) ["README"; "x.jpg"] = ["x.jpg"]) as Hq
    by (vm_compute; reflexivity).
  assert (resolve DEFAULT_EXTENSIONS dirs = Raise IndexError) as Hr.
  { unfold resolve. rewrite Hdirs, for_each_cons.
    assert (os_listdir "catA" = Ok ["README"; "x.jpg"]) as Hl
      by (unfold os_listdir; by rewrite HA).
    rewrite (scan_dir_Ok _ _ _ _ _ Hl), for_each_cons.
    by rewrite scan_file_no_dot by apply not_has_dot_README. }
  split; [|split; [done|]].
  - rewrite Hdirs, !candidates_cons. unfold listing, os_listdir. rewrite HA, HB, Hq. done.
  - unfold extract_features. simpl label_dirs. by rewrite SelectFacts.bind_lift, Hr.
Qed.
End duplicates.

Lemma dotless_name_hides_duplicate_witness :
  let C := Toy.collaborators {[ "catA" := ["README"; "x.jpg"]; "catB" := ["README"; "x.jpg"] ]} in
  let dirs : gmap string string := {[ "catA" := "cat"; "catB" := "cat" ]} in
  @directory C "catA" = Some ["README"; "x.jpg"] ∧
  @directory C "catB" = Some ["README"; "x.jpg"] ∧
  @extract_features C (DirLabels dirs) None "first" DEFAULT_EXTENSIONS (Modes IMREAD_MODES)
    ParFalse None () (@World C 0%nat [])
  = (Raise IndexError, @World C 0%nat []).
Proof.
  simpl. split; [reflexivity|]. split; [reflexivity|].
  refine (proj2 (proj2 (@dotless_name_hides_duplicate (Toy.collaborators _) None "first"
            (Modes IMREAD_MODES) ParFalse None () _ _ _))); reflexivity.
Defined.

(** Without the name that has no dot, the two directories give the
    duplicate-image error, naming the file and the label. *)
Example duplicate_image_scenario :
  let C := Toy.collaborators {[ "catA" := ["x.jpg"]; "catB" := ["x.jpg"] ]} in
  @extract_features C (DirLabels {[ "catA" := "cat"; "catB" := "cat" ]}) None "first"
    DEFAULT_EXTENSIONS (Modes IMREAD_MODES) ParFalse None () (@World C 0%nat [])
  = (Raise (DuplicateImage "x.jpg" "cat"), @World C 0%nat []).
Proof. vm_compute. reflexivity. Qed.

Lemma dotless_name_raises_IndexError_witness :
  let C := Toy.collaborators {[ "imgs" := ["a.jpg"; "README"; "b.png"] ]} in
  @directory C "imgs" = Some ["a.jpg"; "README"; "b.png"] ∧
  NoDup ["a.jpg"; "README"; "b.png"] ∧
  "README" ∈ ["a.jpg"; "README"; "b.png"] ∧
  ¬ has_dot "README" ∧
  @extract_features C (DirNames ["imgs"]) None "first" DEFAULT_EXTENSIONS (Modes IMREAD_MODES)
    ParFalse None () (@World C 0%nat [])
  = (Raise IndexError, @World C 0%nat []).
Proof.
  simpl. split; [reflexivity|]. split; [by_computation|]. split; [by_computation|].
  split; [by_computation|].
  refine (proj2 (@dotless_name_raises_IndexError (Toy.collaborators _) DEFAULT_EXTENSIONS
            "imgs" "README" ["a.jpg"; "README"; "b.png"] None "first" (Modes IMREAD_MODES)
            ParFalse None () _ _ _ _ _)); [reflexivity|by_computation..].
Defined.

Lemma iterable_dirs_collapse_witness :
  let C := Toy.collaborators {[ "one" := ["c.jpg"; "notes.txt"; "a.JPG"]; "two" := ["c.jpg"] ]} in
  let dirs := @label_dirs (DirNames ["one"; "two"; "one"]) in
  (∀ d fnames, @directory C d = Some fnames → NoDup fnames) ∧
  map_to_list dirs ≡ₚ (λ d, (d, d)) <$> remove_dups ["one"; "two"; "one"] ∧
  (∀ fname label, @resolve C DEFAULT_EXTENSIONS dirs ≠ Raise (DuplicateImage fname label)) ∧
  ∃ ims, @resolve C DEFAULT_EXTENSIONS dirs = Ok ims ∧
         ims !!! "one" = [("one", "c.jpg"); ("one", "a.JPG")] ∧
         ims !!! "two" = [("two", "c.jpg")].
Proof.
  simpl.
  assert (∀ d fnames, @directory (Toy.collaborators
            {[ "one" := ["c.jpg"; "notes.txt"; "a.JPG"]; "two" := ["c.jpg"] ]}) d = Some fnames
          → NoDup fnames) as Hfs.
  { intros d fnames. simpl.
    destruct (decide (d = "one")) as [->|]; [intros [= <-]; by_computation|].
    destruct (decide (d = "two")) as [->|]; [intros [= <-]; by_computation|].
    rewrite lookup_insert_ne by done. by rewrite lookup_singleton_ne. }
  split; [exact Hfs|].
  destruct (@iterable_dirs_collapse (Toy.collaborators _) DEFAULT_EXTENSIONS
              ["one"; "two"; "one"] Hfs) as (_ & _ & Hperm & Hnodup & _).
  split; [exact Hperm|]. split; [exact Hnodup|].
  eexists. split; [vm_compute; reflexivity|]. split; vm_compute; reflexivity.
Defined.

End ResolveFacts.

(** ** Dispatch *)

Module DispatchFacts.
Import SelectFacts.

Section pool_map.
Context `{Collaborators} {A B : Type} (f : A → res B).

Lemma store_result_Some (xs : list A) slots i x y :
  xs !! i = Some x → f x = Ok y → store_result f xs slots i = Ok (<[i := Some y]> slots).
Proof. intros Hx Hy. unfold store_result. by rewrite Hx, Hy. Qed.

Lemma store_result_None (xs : list A) slots i :
  xs !! i = None → store_result f xs slots i = Ok slots.
Proof. intros Hx. unfold store_result. by rewrite Hx. Qed.

Lemma store_results_Ok (xs : list A) (ys : list B) (order : list nat) slots :
  Forall2 (λ x y, f x = Ok y) xs ys →
  for_each (store_result f xs) slots order
  = Ok (foldl (λ s i, if decide (i < length xs)%nat then <[i := ys !! i]> s else s) slots order).
Proof.
  intros Hxy. revert slots. induction order as [|i order IH]; intros slots; [done|].
  rewrite ResolveFacts.for_each_cons. cbn [foldl].
  destruct (xs !! i) as [x|] eqn:Hx.
  - destruct (Forall2_lookup_l _ _ _ _ _ Hxy Hx) as (y & Hy & Hfx).
    rewrite (store_result_Some _ _ _ _ _ Hx Hfx). cbn [mbind res_bind]. rewrite IH.
    apply lookup_lt_Some in Hx. rewrite decide_True by done. by rewrite Hy.
  - rewrite (store_result_None _ _ _ Hx). cbn [mbind res_bind]. rewrite IH.
    apply lookup_ge_None in Hx. by rewrite decide_False by lia.
Qed.

Lemma stored_lookup (ys : list B) n (order : list nat) (slots : list (option B)) j :
  length slots = n → (j < n)%nat →
  foldl (λ s i, if decide (i < n)%nat then <[i := ys !! i]> s else s) slots order !! j
  = if decide (j ∈ order) then Some (ys !! j) else slots !! j.
Proof.
  revert slots. induction order as [|i order IH]; intros slots Hlen Hj; cbn [foldl].
  { rewrite decide_False; [done|]. apply not_elem_of_nil. }
  rewrite IH; [|by destruct (decide (i < n)%nat); rewrite ?length_insert|done].
  destruct (decide (j ∈ order)) as [Hin|Hnin].
  { rewrite decide_True; [done|]. by right. }
  destruct (decide (j = i)) as [->|Hne].
  - rewrite !decide_True by (done || left).
    by rewrite list_lookup_insert_eq by lia.
  - rewrite (decide_False (P := j ∈ i :: order)) by (rewrite elem_of_cons; naive_solver).
    destruct (decide (i < n)%nat); [|done]. by rewrite list_lookup_insert_ne.
Qed.

Lemma stored_length (ys : list B) n (order : list nat) (slots : list (option B)) :
  length (foldl (λ s i, if decide (i < n)%nat then <[i := ys !! i]> s else s) slots order)
  = length slots.
Proof.
  revert slots. induction order as [|i order IH]; intros slots; cbn [foldl]; [done|].
  rewrite IH. destruct (decide (i < n)%nat); by rewrite ?length_insert.
Qed.

(** The pool returns the results in the order of the inputs, in whatever
    order its workers complete the tasks. *)
Lemma pool_map_Ok (xs : list A) (ys : list B) :
  comprehension f xs = Ok ys → pool_map f xs = Ok ys.
Proof.
  intros Hxy%comprehension_Ok. unfold pool_map.
  rewrite (store_results_Ok xs ys) by done. cbn [mbind res_bind]. f_equal.
  pose proof (Forall2_length _ _ _ Hxy) as Hlen.
  set (order := merge_sort completion_le (seq 0 (length xs))).
  set (final := foldl _ _ order).
  assert (final = Some <$> ys) as ->.
  { apply list_eq_same_length with (length xs).
    - by rewrite length_fmap.
    - unfold final. by rewrite stored_length, length_replicate.
    - intros j o1 o2 Hj. unfold final.
      rewrite stored_lookup by (by rewrite ?length_replicate).
      rewrite decide_True.
      + rewrite list_lookup_fmap. intros [= <-].
        destruct (ys !! j); simpl; congruence.
      + unfold order. rewrite merge_sort_Permutation. apply elem_of_seq. lia. }
  induction ys as [|y ys' IH']; [done|]. clear IH'.
  rewrite <-(list_fmap_id (y :: ys')) at 2.
  generalize (y :: ys'). intros l. induction l as [|z l IHl]; [done|].
  csimpl. by rewrite IHl.
Qed.

Lemma store_results_Ok_inv (xs : list A) (order : list nat) slots slots' :
  for_each (store_result f xs) slots order = Ok slots' →
  ∀ i x, i ∈ order → xs !! i = Some x → is_Ok (f x).
Proof.
  revert slots. induction order as [|j order IH]; intros slots Hrun i x Hi Hx.
  { by apply elem_of_nil in Hi. }
  rewrite ResolveFacts.for_each_cons in Hrun.
  destruct (store_result f xs slots j) as [slots1|e] eqn:Hj; [|done].
  apply elem_of_cons in Hi as [->|Hi]; [|by eapply IH].
  unfold store_result in Hj. rewrite Hx in Hj.
  destruct (f x) as [y|e]; [by eexists|done].
Qed.

(** A task that raises fails the whole map: no partial result comes back. *)
Lemma pool_map_Raise (xs : list A) x e :
  x ∈ xs → f x = Raise e → ∃ e', pool_map f xs = Raise e'.
Proof.
  intros [i Hi]%list_elem_of_lookup Hx. unfold pool_map.
  destruct (for_each _ _ _) as [slots|e'] eqn:Hrun; [|by eexists].
  destruct (store_results_Ok_inv _ _ _ _ Hrun i x) as [y Hy]; [|done|congruence].
  rewrite merge_sort_Permutation. apply elem_of_seq. apply lookup_lt_Some in Hi. lia.
Qed.
End pool_map.

Section dispatch_facts.
Context `{Collaborators}.

Lemma find_imread_loop_own all modes bound m :
  find_imread_loop all modes bound = Ok (m, m) →
  (∀ b, bound = Some b → b ≠ m) →
  has_branch m = true ∧ backend_probe m = Imports.
Proof.
  revert bound. induction modes as [|mode rest IH]; intros bound; simpl; [done|].
  destruct (has_branch mode) eqn:Hb.
  - destruct (backend_probe mode) eqn:Hp.
    + by intros [= <-].
    + apply IH.
    + intros Hf Hbound. eapply IH; [done|]. intros b.
      destruct (String.prefix "skimage-" mode); [|by apply Hbound].
      intros [= <-] ->.
      clear IH Hbound. revert Hf. generalize (Some m).
      induction rest as [|mode' rest IH']; intros o; simpl; [done|].
      destruct (has_branch mode') eqn:Hb'.
      * destruct (backend_probe mode') eqn:Hp'; [|by apply IH'..].
        intros [= ->]. congruence.
      * destruct o; [|done]. intros [= -> _]. congruence.
  - destruct bound as [b|]; [|done]. intros [= -> ->] Hbound. by destruct (Hbound _ eq_refl).
Qed.

(** When the backend found in the preference list is the one of its own
    name, the closure decodes as [_load_features] does with the list. *)
Lemma load_features_frozen modes m filename size kw :
  _find_working_imread modes = Ok (m, m) →
  load_features_with m size kw filename = _load_features filename modes size kw.
Proof.
  intros Hm. unfold load_features_with, _load_features. rewrite Hm.
  unfold _find_working_imread in *.
  apply find_imread_loop_own in Hm as [Hb Hi]; [|done].
  simpl. by rewrite Hb, Hi.
Qed.

Lemma mp_Pool_Ok procs w :
  1 ≤ default cpu_count procs →
  mp_Pool procs w = (Ok (Pool (default cpu_count procs) RUN),
                     World (w_rng w) (w_pools w ++ [Pool (default cpu_count procs) RUN])).
Proof. intros Hn. unfold mp_Pool. by rewrite decide_False by lia. Qed.

Lemma strict_map_ordered : ordered_map strict_map.
Proof. by intros f xs ys. Qed.

Lemma pool_map_ordered : ordered_map pool_map.
Proof. intros f xs ys. apply pool_map_Ok. Qed.

(** Every dispatch mode yields an ordered map; a pool that the call
    creates is added to the pools of the process. *)
Lemma choose_map_mode par w :
  dispatch_mode par →
  ∃ do_map, ordered_map do_map ∧
    choose_map par w
    = (Ok do_map,
       match pool_size par with
       | Some n => World (w_rng w) (w_pools w ++ [Pool n RUN])
       | None => w
       end).
Proof.
  destruct par as [| | |n|m]; simpl; intros Hmode.
  - exists strict_map. split; [apply strict_map_ordered|done].
  - exists pool_map. split; [apply pool_map_ordered|].
    rewrite bind_M, (mp_Pool_Ok None) by done. done.
  - exists pool_map. split; [apply pool_map_ordered|].
    rewrite bind_M, (mp_Pool_Ok None) by done. done.
  - exists pool_map. split; [apply pool_map_ordered|].
    rewrite bind_M, (mp_Pool_Ok (Some n)) by done. done.
  - exists m. by split.
Qed.

Lemma unzip3_Ok {X Y Z'} (l : list (X * Y * Z')) r : unzip3 l = Ok r → r.2 ≠ [].
Proof. destruct l; [done|]. by intros [= <-]. Qed.

Lemma select_paths_nonempty sample ims w labels names paths w1 :
  select sample ims w = (Ok (labels, names, paths), w1) → paths ≠ [].
Proof.
  unfold select. rewrite bind_M.
  destruct (comprehensionM _ _ w) as [[rows|e] w0]; [|done].
  unfold lift. intros [= Hu <-]. by apply unzip3_Ok in Hu.
Qed.

(** Lines 157-174 on a non-empty list of paths that all load. *)
Lemma dispatch_aligned modes par size kw labels names paths w m backend :
  dispatch_mode par → paths ≠ [] →
  _find_working_imread modes = Ok (m, backend) →
  Forall (λ p, is_Ok (load_features_with m size kw p)) paths →
  ∃ bs w',
    comprehension (load_features_with m size kw) paths = Ok bs ∧
    dispatch modes par size kw (labels, names, paths) w
    = (Ok (mkFeatures labels names bs.*1 bs.*2), w').
Proof.
  intros Hmode Hne Hm Hall.
  destruct (comprehension_all_Ok _ _ Hall) as [bs Hbs].
  destruct (choose_map_mode par w Hmode) as (do_map & Hord & Hmap).
  eexists bs, _. split; [done|].
  unfold dispatch. rewrite bind_M, Hmap. rewrite bind_lift, Hm.
  rewrite (Hord _ paths bs) by exact Hbs.
  rewrite bind_lift. destruct bs as [|b bs'].
  { apply comprehension_Ok, Forall2_length in Hbs. by destruct paths. }
  done.
Qed.

(** C1: for the path list that the selection hands to the dispatcher and
    every dispatch mode (sequential, a pool of the caller with an ordered
    [map], a pool of any size created by the call), when each path loads,
    [extract_features] returns the features, and the frames and the
    descriptors at index [i] are those that the extraction closure of line
    172 - [_load_features] with the backend found once - computes for the
    path at index [i]. *)
Theorem extract_features_index_aligned (dirs : dirs_arg) (cap : option Z) (sname : string)
    (ext : gset string) (modes : modes_arg) (par : parallel_arg)
    (size : option (option Z * option Z)) (kw : kwargs) (w w1 : world)
    (ims : gmap string (list (string * string)))
    (sample : list (string * string) → M (list (string * string)))
    (labels names paths : list string) (m backend : string) :
  dispatch_mode par →
  resolve ext (label_dirs dirs) = Ok ims →
  choose_sample cap sname = Ok sample →
  select sample ims w = (Ok (labels, names, paths), w1) →
  _find_working_imread modes = Ok (m, backend) →
  Forall (λ p, is_Ok (load_features_with m size kw p)) paths →
  ∃ frames descrs w',
    extract_features dirs cap sname ext modes par size kw w
    = (Ok (mkFeatures labels names frames descrs), w') ∧
    length frames = length paths ∧ length descrs = length paths ∧
    ∀ i p, paths !! i = Some p →
      ∃ b, load_features_with m size kw p = Ok b ∧
           frames !! i = Some b.1 ∧ descrs !! i = Some b.2.
Proof.
  intros Hmode Hres Hsample Hsel Hm Hall.
  pose proof (select_paths_nonempty _ _ _ _ _ _ _ Hsel) as Hne.
  destruct (dispatch_aligned modes par size kw labels names paths w1 m backend
              Hmode Hne Hm Hall) as (bs & w' & Hbs & Hd).
  exists bs.*1, bs.*2, w'. split.
  { unfold extract_features. rewrite bind_lift, Hres, bind_lift, Hsample, bind_M, Hsel. done. }
  apply comprehension_Ok in Hbs. pose proof (Forall2_length _ _ _ Hbs) as Hlen.
  rewrite !length_fmap. split; [done|]. split; [done|].
  intros i p Hp. destruct (Forall2_lookup_l _ _ _ _ _ Hbs Hp) as (b & Hb & Hload).
  exists b. rewrite !list_lookup_fmap, Hb. done.
Qed.

(** *** The pools of the process *)

Lemma choose_sample_pools cap sname sample :
  choose_sample cap sname = Ok sample → ∀ x w, w_pools (sample x w).2 = w_pools w.
Proof.
  unfold choose_sample. destruct cap as [n|].
  - destruct (SAMPLERS !! sname) as [s|]; [|done]. intros [= <-] x w.
    unfold with_rng. by destruct (s x n (w_rng w)).
  - by intros [= <-].
Qed.

Lemma comprehensionM_pools {X Y} (f : X → M Y) l w :
  (∀ x w, w_pools (f x w).2 = w_pools w) → w_pools (comprehensionM f l w).2 = w_pools w.
Proof.
  intros Hf. revert w. induction l as [|x l IH]; intros w; [done|].
  cbn [comprehensionM]. rewrite bind_M. specialize (Hf x w).
  destruct (f x w) as [[y|e] w0]; [|done]. simpl in Hf. rewrite bind_M.
  specialize (IH w0). destruct (comprehensionM f l w0) as [[ys|e] w1]; simpl in *; congruence.
Qed.

Lemma select_label_pools cap sname sample entry w :
  choose_sample cap sname = Ok sample → w_pools (select_label sample entry w).2 = w_pools w.
Proof.
  intros Hs. destruct entry as [label images]. unfold select_label. rewrite bind_M.
  pose proof (choose_sample_pools _ _ _ Hs (sorted_pairs images) w) as Hp.
  by destruct (sample (sorted_pairs images) w) as [[c|err] w2].
Qed.

Lemma select_pools cap sname sample ims w :
  choose_sample cap sname = Ok sample → w_pools (select sample ims w).2 = w_pools w.
Proof.
  intros Hs. unfold select. rewrite bind_M.
  pose proof (comprehensionM_pools (select_label sample) (map_to_list ims) w) as Hc.
  destruct (comprehensionM _ _ w) as [[rows|err] w0]; simpl in *;
    apply Hc; intros entry w'; by eapply select_label_pools.
Qed.

(** Lines 157-174 with a pool created by the call: the pool is created
    and nothing after it touches the pools again. *)
Lemma dispatch_leaves_pool modes par size kw sel w n :
  pool_size par = Some n → 1 ≤ n →
  ∃ r, dispatch modes par size kw sel w
       = (r, World (w_rng w) (w_pools w ++ [Pool n RUN])).
Proof.
  intros Hsize Hn. destruct sel as [[labels image_names] paths].
  assert (dispatch_mode par) as Hmode.
  { destruct par; simpl in *; by simplify_eq. }
  destruct (choose_map_mode par w Hmode) as (do_map & _ & Hmap). rewrite Hsize in Hmap.
  unfold dispatch. rewrite bind_M, Hmap, bind_lift.
  destruct (_find_working_imread modes) as [[m backend]|e]; [|by eexists].
  rewrite bind_lift. destruct (do_map _ paths) as [bs|e]; [|by eexists].
  rewrite bind_lift. destruct (unzip2 bs) as [[fr de]|e]; by eexists.
Qed.

(** C9, amended: a call that creates its own pool never closes,
    terminates or joins it.  Once the images are selected, however the
    call ends - with the features, or with the error of a backend or of a
    worker - the pool it created is among the pools of the process, still
    running, and the pools that existed before are as they were. *)
Theorem internal_pool_left_running (dirs : dirs_arg) (cap : option Z) (sname : string)
    (ext : gset string) (modes : modes_arg) (par : parallel_arg)
    (size : option (option Z * option Z)) (kw : kwargs) (w w1 : world)
    (ims : gmap string (list (string * string)))
    (sample : list (string * string) → M (list (string * string)))
    (sel : list string * list string * list string) (n : Z) :
  pool_size par = Some n → 1 ≤ n →
  resolve ext (label_dirs dirs) = Ok ims →
  choose_sample cap sname = Ok sample →
  select sample ims w = (Ok sel, w1) →
  ∃ r, extract_features dirs cap sname ext modes par size kw w
       = (r, World (w_rng w1) (w_pools w ++ [Pool n RUN])).
Proof.
  intros Hsize Hn Hres Hsample Hsel.
  destruct (dispatch_leaves_pool modes par size kw sel w1 n Hsize Hn) as [r Hr].
  exists r. unfold extract_features.
  rewrite bind_lift, Hres, bind_lift, Hsample, bind_M, Hsel, Hr.
  pose proof (select_pools _ _ _ ims w Hsample) as Hp. rewrite Hsel in Hp. simpl in Hp.
  by rewrite Hp.
Qed.
End dispatch_facts.

Lemma extract_features_index_aligned_witness :
  let C := Toy.collaborators three_images in
  ∃ frames descrs w',
    @extract_features C (DirNames ["one"]) None "first" DEFAULT_EXTENSIONS
      (Modes IMREAD_MODES) (ParInt 4) None () (@World C 0%nat [])
    = (Ok (@mkFeatures C ["one"; "one"; "one"] ["a.jpg"; "bb.png"; "c.jpg"] frames descrs), w') ∧
    length frames = 3%nat ∧ length descrs = 3%nat ∧
    ∀ i p, ["one/a.jpg"; "one/bb.png"; "one/c.jpg"] !! i = Some p →
      ∃ b, @load_features_with C "cv2" None () p = Ok b ∧
           frames !! i = Some b.1 ∧ descrs !! i = Some b.2.
Proof.
  intros C.
  eapply (@extract_features_index_aligned C (DirNames ["one"]) None "first"
            DEFAULT_EXTENSIONS (Modes IMREAD_MODES) (ParInt 4) None ()
            (@World C 0%nat []) (@World C 0%nat []) _ _
            ["one"; "one"; "one"] ["a.jpg"; "bb.png"; "c.jpg"]
            ["one/a.jpg"; "one/bb.png"; "one/c.jpg"] "cv2" "cv2").
  - simpl. lia.
  - run_lhs.
  - reflexivity.
  - run_lhs.
  - vm_compute. reflexivity.
  - repeat constructor; eexists; vm_compute; reflexivity.
Defined.

(** The same call in the other modes, and what the pool of the toy world
    does on the way: its workers finish the last task first. *)
Example dispatch_modes_agree :
  let C := Toy.collaborators three_images in
  let run par := (@extract_features C (DirNames ["one"]) None "first" DEFAULT_EXTENSIONS
                    (Modes IMREAD_MODES) par None () (@World C 0%nat [])).1 in
  run ParFalse = run (ParInt 4) ∧ run ParFalse = run (ParInt 1) ∧ run ParFalse = run ParTrue ∧
  run ParFalse = run (ParObject (λ f xs, reverse <$> comprehension f (reverse xs))) ∧
  merge_sort (@completion_le C) (seq 0 3) = [2; 1; 0]%nat.
Proof. vm_compute. repeat split. Qed.

Lemma internal_pool_left_running_witness :
  let C := Toy.collaborators three_images in
  ∃ r, @extract_features C (DirNames ["one"]) None "first" DEFAULT_EXTENSIONS
         (Modes IMREAD_MODES) (ParInt 2) None () (@World C 0%nat [])
       = (r, @World C 0%nat [Pool 2 RUN]).
Proof.
  intros C.
  eapply (@internal_pool_left_running C (DirNames ["one"]) None "first"
            DEFAULT_EXTENSIONS (Modes IMREAD_MODES) (ParInt 2) None ()
            (@World C 0%nat []) (@World C 0%nat [])).
  - reflexivity.
  - lia.
  - run_lhs.
  - reflexivity.
  - run_lhs.
Defined.

(** C9 as stated fails on both exits: after a call that completes and
    after a call that a worker error aborts, the pool that the call created
    is still running. *)
Lemma internal_pool_not_torn_down :
  let C := Toy.collaborators {[ "ok" := ["a.jpg"]; "img" := ["a.jpg"; "broken.jpg"] ]} in
  (∃ F, @extract_features C (DirNames ["ok"]) None "first" DEFAULT_EXTENSIONS
          (Modes IMREAD_MODES) (ParInt 2) None () (@World C 0%nat [])
        = (Ok F, @World C 0%nat [Pool 2 RUN])) ∧
  @extract_features C (DirNames ["img"]) None "first" DEFAULT_EXTENSIONS
    (Modes IMREAD_MODES) ParTrue None () (@World C 0%nat [])
  = (Raise (WorkerError "img/broken.jpg"), @World C 0%nat [Pool 4 RUN]).
Proof.
  simpl. split; [eexists|]; vm_compute; reflexivity.
Qed.

End DispatchFacts.

(** ** The container and the archive *)

Module ArchiveFacts.
Section h5_facts.
Context `{Collaborators}.

Lemma lookup_path_cons c cs (ms : gmap string h5obj) :
  lookup_path (c :: cs) ms =
    match ms !! c with
    | Some (H5Group sub) => lookup_path cs sub
    | Some (H5Dataset d) => match cs with [] => Some (H5Dataset d) | _ => None end
    | None => None
    end.
Proof. done. Qed.

Lemma lookup_path_cons_Some c cs (ms : gmap string h5obj) o :
  lookup_path (c :: cs) ms = Some o → is_Some (ms !! c).
Proof. rewrite lookup_path_cons. destruct (ms !! c); [by eexists|done]. Qed.

Lemma extends_refl ms : extends ms ms.
Proof. intros path [d|g] Hp; eauto. Qed.

Lemma extends_trans ms1 ms2 ms3 : extends ms1 ms2 → extends ms2 ms3 → extends ms1 ms3.
Proof.
  intros H12 H23 path o Hp. specialize (H12 path o Hp). destruct o as [d|g].
  - by apply (H23 path (H5Dataset d)).
  - destruct H12 as [g2 Hg2]. by apply (H23 path (H5Group g2)).
Qed.

Lemma extends_is_Some ms ms' path :
  extends ms ms' → is_Some (lookup_path path ms) → is_Some (lookup_path path ms').
Proof.
  intros Hext [o Ho]. specialize (Hext path o Ho).
  destruct o; [by eexists|]. destruct Hext as [g Hg]. by eexists.
Qed.

(** Linking below a fresh name, or inside one member group that grew. *)
Lemma extends_insert_fresh c o (ms : gmap string h5obj) :
  ms !! c = None → extends ms (<[c := o]> ms).
Proof.
  intros Hc [|c' cs] x Hx.
  - injection Hx as <-. by eexists.
  - pose proof (lookup_path_cons_Some _ _ _ _ Hx) as [y Hy].
    assert (c ≠ c') by congruence.
    rewrite lookup_path_cons in Hx. rewrite lookup_path_cons, lookup_insert_ne by done.
    destruct x; eauto.
Qed.

Lemma extends_insert_group c sub sub' (ms : gmap string h5obj) :
  ms !! c = Some (H5Group sub) → extends sub sub' →
  extends ms (<[c := H5Group sub']> ms).
Proof.
  intros Hc Hext [|c' cs] x Hx.
  - injection Hx as <-. by eexists.
  - rewrite lookup_path_cons in Hx. rewrite lookup_path_cons.
    destruct (decide (c = c')) as [<-|Hne].
    + rewrite lookup_insert_eq. rewrite Hc in Hx. by apply Hext.
    + rewrite lookup_insert_ne by done. destruct x; eauto.
Qed.

Lemma link_at_extends path o ms ms' : link_at path o ms = Ok ms' → extends ms ms'.
Proof.
  revert ms ms'. induction path as [|c cs IH]; intros ms ms'; [done|].
  cbn [link_at]. destruct cs as [|c2 cs].
  - destruct (ms !! c) eqn:Hc; [done|]. intros [= <-]. by apply extends_insert_fresh.
  - destruct (ms !! c) as [[d|sub]|] eqn:Hc; [done| |].
    + destruct (link_at (c2 :: cs) o sub) as [sub'|e] eqn:Hl; [|done].
      intros [= <-]. eapply extends_insert_group; [done|]. by apply IH.
    + destruct (link_at (c2 :: cs) o ∅) as [sub'|e]; [|done].
      intros [= <-]. by apply extends_insert_fresh.
Qed.

Lemma link_at_lookup path o ms ms' :
  link_at path o ms = Ok ms' → lookup_path path ms' = Some o.
Proof.
  revert ms ms'. induction path as [|c cs IH]; intros ms ms'; [done|].
  cbn [link_at]. rewrite lookup_path_cons. destruct cs as [|c2 cs].
  - destruct (ms !! c) eqn:Hc; [done|]. intros [= <-]. rewrite lookup_insert_eq.
    by destruct o.
  - destruct (ms !! c) as [[d|sub]|] eqn:Hc; [done| |].
    + destruct (link_at (c2 :: cs) o sub) as [sub'|e] eqn:Hl; [|done].
      intros [= <-]. rewrite lookup_insert_eq. by eapply IH.
    + destruct (link_at (c2 :: cs) o ∅) as [sub'|e] eqn:Hl; [|done].
      intros [= <-]. rewrite lookup_insert_eq. by eapply IH.
Qed.

(** A name that is taken is never linked again. *)
Lemma link_at_taken path o ms :
  is_Some (lookup_path path ms) → ∃ e, link_at path o ms = Raise e.
Proof.
  revert ms. induction path as [|c cs IH]; intros ms [x Hx]; [by eexists|].
  cbn [link_at]. rewrite lookup_path_cons in Hx. destruct cs as [|c2 cs].
  - destruct (ms !! c); [by eexists|done].
  - destruct (ms !! c) as [[d|sub]|]; [by eexists| |done].
    destruct (IH sub) as [e ->]; [by eexists|]. by eexists.
Qed.

Lemma lookup_path_prefix p q (ms : gmap string h5obj) :
  is_Some (lookup_path (p ++ q) ms) → is_Some (lookup_path p ms).
Proof.
  revert ms. induction p as [|c p IH]; intros ms; [by eexists|].
  rewrite <-app_comm_cons, !lookup_path_cons.
  destruct (ms !! c) as [[d|sub]|]; [|apply IH|done].
  destruct p, q; simpl; (done || by eexists).
Qed.

(** *** Writing through the open file *)

Lemma bind_H5 {X Y} (m : H5 X) (k : X → H5 Y) f :
  (m ≫= k) f = match m f with (Ok a, f') => k a f' | (Raise e, f') => (Raise e, f') end.
Proof. done. Qed.

Lemma link_outcome path o f r f' :
  link path o f = (r, f') →
  extends (root f) (root f') ∧
  (r = Ok () → lookup_path path (root f') = Some o) ∧
  (is_Some (lookup_path path (root f)) → ∃ e, r = Raise e).
Proof.
  unfold link. destruct (link_at path o (root f)) as [r'|e] eqn:Hl; intros [= <- <-].
  - split; [by eapply link_at_extends|]. split; [intros _; by eapply link_at_lookup|].
    intros Hs. destruct (link_at_taken path o (root f) Hs) as [e He]. congruence.
  - split; [apply extends_refl|]. split; [done|]. by eexists.
Qed.

Lemma create_group_outcome g name f r f' :
  create_group g name f = (r, f') →
  extends (root f) (root f') ∧
  (∀ h, r = Ok h → h = target g name ∧ lookup_path h (root f') = Some (H5Group ∅)) ∧
  (is_Some (lookup_path (target g name) (root f)) → ∃ e, r = Raise e).
Proof.
  unfold create_group. rewrite bind_H5.
  destruct (link (target g name) (H5Group ∅) f) as [[[]|e] f1] eqn:Hl;
    apply link_outcome in Hl as (Hext & Hok & Htaken); intros [= <- <-].
  - split; [done|]. split; [intros h [= <-]; auto|].
    intros Hs. by destruct (Htaken Hs).
  - split; [done|]. split; [done|]. by eexists.
Qed.

Lemma require_group_outcome g name f r f' :
  require_group g name f = (r, f') →
  extends (root f) (root f') ∧ (∀ h, r = Ok h → h = target g name).
Proof.
  unfold require_group. destruct (lookup_path (target g name) (root f)) as [[d|grp]|].
  - intros [= <- <-]. split; [apply extends_refl|done].
  - intros [= <- <-]. split; [apply extends_refl|]. by intros h [= <-].
  - intros (Hext & Hok & _)%create_group_outcome. split; [done|].
    intros h Hh. by apply Hok.
Qed.

Lemma target_frames g : target g "frames" = g ++ ["frames"].
Proof. reflexivity. Qed.
Lemma target_features g : target g "features" = g ++ ["features"].
Proof. reflexivity. Qed.

Lemma setitem_outcome g name data f r f' :
  setitem g name data f = (r, f') →
  extends (root f) (root f') ∧
  (r = Ok () → lookup_path (target g name) (root f') = Some (H5Dataset data)).
Proof. intros (? & ? & _)%link_outcome. auto. Qed.

(** Writing one record only adds to the file; when it succeeds the two
    arrays are in the leaf group of the record; when the leaf group is
    already there it raises. *)
Lemma save_record_outcome label name fr de f r f' :
  save_record (label, name, fr, de) f = (r, f') →
  extends (root f) (root f') ∧
  (r = Ok () →
     lookup_path (leaf_path label name ++ ["frames"]) (root f') = Some (H5Dataset fr) ∧
     lookup_path (leaf_path label name ++ ["features"]) (root f') = Some (H5Dataset de)) ∧
  (is_Some (lookup_path (leaf_path label name) (root f)) → ∃ e, r = Raise e).
Proof.
  unfold save_record. rewrite bind_H5.
  destruct (require_group [] label f) as [[lg|e1] f1] eqn:H1;
    apply require_group_outcome in H1 as (Hext1 & Hlg).
  2:{ intros [= <- <-]. split; [done|]. split; [done|]. by eexists. }
  specialize (Hlg lg eq_refl). subst lg. rewrite bind_H5.
  destruct (create_group (target [] label) name f1) as [[g|e2] f2] eqn:H2;
    apply create_group_outcome in H2 as (Hext2 & Hg & Htaken).
  2:{ intros [= <- <-]. split; [by eapply extends_trans|]. split; [done|]. by eexists. }
  destruct (Hg g eq_refl) as [-> _]. fold (leaf_path label name) in *.
  assert (¬ is_Some (lookup_path (leaf_path label name) (root f))) as Hfresh.
  { intros Hs. by destruct (Htaken (extends_is_Some _ _ _ Hext1 Hs)). }
  rewrite bind_H5.
  destruct (setitem (leaf_path label name) "frames" fr f2) as [[[]|e3] f3] eqn:H3;
    apply setitem_outcome in H3 as (Hext3 & Hfr).
  2:{ intros [= <- <-].
      split; [by eapply extends_trans; [|eapply extends_trans]|].
      split; [done|]. by eexists. }
  intros (Hext4 & Hde)%setitem_outcome.
  split; [by eapply extends_trans; [|eapply extends_trans; [|eapply extends_trans]]|].
  split; [|done].
  intros ->. rewrite target_frames in Hfr. rewrite target_features in Hde.
  split; [|by apply Hde]. by apply (Hext4 _ (H5Dataset fr)), Hfr.
Qed.

Lemma for_eachH_app {X} (body : X → H5 ()) l1 l2 f :
  for_eachH body (l1 ++ l2) f =
    match for_eachH body l1 f with
    | (Ok _, f1) => for_eachH body l2 f1
    | (Raise e, f1) => (Raise e, f1)
    end.
Proof.
  revert f. induction l1 as [|x l1 IH]; intros f; [done|].
  rewrite <-app_comm_cons. cbn [for_eachH]. rewrite !bind_H5.
  destruct (body x f) as [[[]|e] f0]; [apply IH|done].
Qed.

Lemma save_records_extends rs f r f' :
  for_eachH save_record rs f = (r, f') → extends (root f) (root f').
Proof.
  revert f. induction rs as [|[[[label name] fr] de] rs IH]; intros f.
  { intros [= <- <-]. apply extends_refl. }
  cbn [for_eachH]. rewrite bind_H5.
  destruct (save_record (label, name, fr, de) f) as [[[]|e] f0] eqn:Hs;
    apply save_record_outcome in Hs as (Hext & _).
  - intros Hr%IH. by eapply extends_trans.
  - by intros [= <- <-].
Qed.

(** C8: when two records of one write carry the same (label, image name),
    [save_features] raises; and if the write got as far as the first of the
    two, the arrays of that first leaf are in the file as they were
    written. *)
Theorem duplicate_leaf_is_fatal (feats : Features) (attrs : gmap string string)
    (f : h5file) (i j : nat) (label name : string) (fr1 de1 fr2 de2 : ndarray) :
  records feats !! i = Some (label, name, fr1, de1) →
  records feats !! j = Some (label, name, fr2, de2) →
  (i < j)%nat →
  ∃ e f', save_features feats attrs f = (Raise e, f') ∧
    ∀ f1, for_eachH save_record (take (S i) (records feats)) f = (Ok (), f1) →
      lookup_path (leaf_path label name ++ ["frames"]) (root f') = Some (H5Dataset fr1) ∧
      lookup_path (leaf_path label name ++ ["features"]) (root f') = Some (H5Dataset de1).
Proof.
  intros Hi Hj Hij. unfold save_features. rewrite bind_H5.
  remember (records feats) as rs eqn:Hrecs. clear Hrecs.
  rewrite (take_S_r _ _ _ Hi).
  assert (rs = take i rs ++ [(label, name, fr1, de1)]
                 ++ take (j - S i) (drop (S i) rs)
                 ++ (label, name, fr2, de2) :: drop (S (j - S i)) (drop (S i) rs)) as Hrs.
  { rewrite <-(take_drop_middle rs i _ Hi) at 1. f_equal. simpl. f_equal.
    symmetry. apply take_drop_middle. rewrite lookup_drop. rewrite <-Hj. f_equal. lia. }
  remember (take i rs) as pre eqn:Epre. clear Epre.
  remember (take (j - S i) (drop (S i) rs)) as mid eqn:Emid. clear Emid.
  remember (drop (S (j - S i)) (drop (S i) rs)) as post eqn:Epost. clear Epost.
  subst rs. rewrite (app_assoc pre), !for_eachH_app.
  destruct (for_eachH save_record pre f) as [[[]|e0] f0] eqn:Hpre.
  2:{ exists e0, f0. split; [done|]. by intros ?. }
  cbn [for_eachH]. rewrite !bind_H5.
  destruct (save_record (label, name, fr1, de1) f0) as [[[]|e1] f1] eqn:H1.
  2:{ exists e1, f1. split; [done|]. by intros ?. }
  apply save_record_outcome in H1 as (_ & Hleaf & _).
  destruct (Hleaf eq_refl) as [Hfr Hde].
  assert (∀ f2, extends (root f1) (root f2) →
            lookup_path (leaf_path label name ++ ["frames"]) (root f2) = Some (H5Dataset fr1) ∧
            lookup_path (leaf_path label name ++ ["features"]) (root f2) = Some (H5Dataset de1))
    as Hkeep.
  { intros f2 Hext. split.
    - by apply (Hext _ (H5Dataset fr1)).
    - by apply (Hext _ (H5Dataset de1)). }
  cbn [mret H5_ret]. rewrite for_eachH_app.
  destruct (for_eachH save_record mid f1) as [[[]|e2] f2] eqn:Hmid;
    pose proof (save_records_extends _ _ _ _ Hmid) as Hext2.
  2:{ exists e2, f2. split; [done|]. intros _ _. by apply Hkeep. }
  cbn [for_eachH]. rewrite bind_H5.
  destruct (save_record (label, name, fr2, de2) f2) as [r3 f3] eqn:H3.
  apply save_record_outcome in H3 as (Hext3 & _ & Htaken).
  destruct Htaken as [e3 ->].
  { eapply extends_is_Some; [done|]. apply lookup_path_prefix with ["frames"]. by eexists. }
  exists e3, f3. split; [done|]. intros _ _. apply Hkeep. by eapply extends_trans.
Qed.
End h5_facts.

Lemma duplicate_leaf_is_fatal_witness :
  let C := Toy.collaborators ∅ in
  let feats := @mkFeatures C ["a"; "b"; "a"] ["i1"; "i2"; "i1"] [[1]; [2]; [3]] [[4]; [5]; [6]] in
  ∃ e f', @save_features C feats ∅ (@H5File C ∅ ∅) = (Raise e, f') ∧
    @lookup_path C ["a"; "i1"; "frames"] (root f') = Some (@H5Dataset C [1]) ∧
    @lookup_path C ["a"; "i1"; "features"] (root f') = Some (@H5Dataset C [4]).
Proof.
  intros C feats.
  destruct (@duplicate_leaf_is_fatal C feats ∅ (@H5File C ∅ ∅) 0 2 "a" "i1" [1] [4] [3] [6])
    as (e & f' & Hsave & Hkeep); [reflexivity|reflexivity|lia|].
  exists e, f'. split; [exact Hsave|].
  eapply Hkeep. run_lhs.
Defined.

Section path_labels.
Context `{Collaborators}.

(** C2, where the code departs from it: an archive of one image whose
    label is the directory path [a/b], as [extract_features] labels the
    images of a directory given by its path.  [save_features] writes the
    arrays below the nested groups [a], [b], [x.jpg]; [read_features] walks
    two levels, takes [a] for the label and [b] for the image, and raises
    the KeyError of the missing [frames]. *)
Theorem path_label_breaks_round_trip (fr de : ndarray) (load_attrs : bool)
    (features_dtype : option dtype) :
  let feats := mkFeatures ["a/b"] ["x.jpg"] [fr] [de] in
  ∃ f, save_features feats ∅ (H5File ∅ ∅) = (Ok (), f) ∧
       root f = {[ "a" := H5Group {[ "b" := H5Group {[ "x.jpg" :=
                  H5Group {[ "frames" := H5Dataset fr; "features" := H5Dataset de ]} ]} ]} ]} ∧
       read_features f load_attrs features_dtype = Raise (KeyError "frames").
Proof.
  simpl. eexists. split; [vm_compute; reflexivity|]. split; [vm_compute; reflexivity|].
  destruct features_dtype; vm_compute; reflexivity.
Qed.
End path_labels.

(** From the directory to the file and back: the images of the directory
    [data/cat], given by its path, are labelled [data/cat]; the archive is
    written, and reading it raises. *)
Example directory_path_label :
  let C := Toy.collaborators {[ "data/cat" := ["x.jpg"] ]} in
  ∃ feats w f,
    @extract_features C (DirNames ["data/cat"]) None "first" DEFAULT_EXTENSIONS
      (Modes IMREAD_MODES) ParFalse None () (@World C 0%nat []) = (Ok feats, w) ∧
    labels feats = ["data/cat"] ∧
    @save_features C feats ∅ (@H5File C ∅ ∅) = (Ok (), f) ∧
    @read_features C f false None = Raise (KeyError "frames").
Proof.
  simpl. eexists _, _, _. split; [vm_compute; reflexivity|]. split; [reflexivity|].
  split; vm_compute; reflexivity.
Qed.

(** The same archive under a label of one component goes and comes back. *)
Example plain_label_round_trip :
  let C := Toy.collaborators ∅ in
  let feats := @mkFeatures C ["b"; "a"; "a"] ["i3"; "i2"; "i1"] [[3]; [2]; [1]] [[6]; [5]; [4]] in
  ∃ f, @save_features C feats {[ "args" := "{}" ]} (@H5File C ∅ ∅) = (Ok (), f) ∧
       @read_features C f true None
       = Ok (@mkFeatures C ["a"; "a"; "b"] ["i1"; "i2"; "i3"] [[1]; [2]; [3]] [[4]; [5]; [6]],
             Some {[ "args" := "{}" ]}).
Proof. simpl. eexists. split; vm_compute; reflexivity. Qed.


(** *** The round trip on names of one link *)

Lemma split_on_length sep s c :
  c ∈ split_on sep s → (String.length c ≤ String.length s)%nat.
Proof.
  revert c. induction s as [|a s IH]; intros c; simpl.
  - intros ->%list_elem_of_singleton. done.
  - destruct (decide (a = sep)).
    + intros [->|Hc]%elem_of_cons; [simpl; lia|]. specialize (IH c Hc). lia.
    + destruct (split_on sep s) as [|w ws] eqn:Hs.
      * intros ->%list_elem_of_singleton. simpl. lia.
      * intros [->|Hc]%elem_of_cons.
        -- simpl. assert (String.length w ≤ String.length s)%nat by (apply IH; left). lia.
        -- assert (String.length c ≤ String.length s)%nat by (apply IH; by right). lia.
Qed.

Lemma link_name_not_absolute s : link_name s → startswith_char slash s = false.
Proof.
  unfold link_name, components. destruct s as [|a s]; [done|]. simpl.
  destruct (decide (a = slash)) as [->|Hne]; [|by rewrite bool_decide_false].
  intros Hc. exfalso.
  assert (String slash s ∈ filter (λ c, c ≠ EmptyString ∧ c ≠ ".") (EmptyString :: split_on slash s))
    as Hin by (rewrite Hc; left).
  apply list_elem_of_filter in Hin as [_ Hin].
  apply elem_of_cons in Hin as [?|Hin]; [done|].
  apply split_on_length in Hin. simpl in Hin. lia.
Qed.

Section round_trip.
Context `{Collaborators}.

Lemma target_link_name g s : link_name s → target g s = g ++ [s].
Proof. intros Hs. unfold target. rewrite link_name_not_absolute by done. by rewrite Hs. Qed.

Lemma link_at_one c o (ms : gmap string h5obj) :
  ms !! c = None → link_at [c] o ms = Ok (<[c := o]> ms).
Proof. intros Hc. cbn [link_at]. by rewrite Hc. Qed.

Lemma link_at_into c c2 cs o (ms sub : gmap string h5obj) :
  ms !! c = Some (H5Group sub) →
  link_at (c :: c2 :: cs) o ms
  = link_at (c2 :: cs) o sub ≫= λ sub', Ok (<[c := H5Group sub']> ms).
Proof. intros Hc. cbn [link_at]. by rewrite Hc. Qed.

Lemma link_Ok path o f r :
  link_at path o (root f) = Ok r → link path o f = (Ok (), H5File r (attrs f)).
Proof. intros Hl. unfold link. by rewrite Hl. Qed.

(** The three writes of one record below an existing label group. *)
Lemma write_leaf r a l n fr de (sub : gmap string h5obj) :
  link_name n → r !! l = Some (H5Group sub) → sub !! n = None →
  (create_group [l] n ≫= λ g, setitem g "frames" fr ≫= λ _, setitem g "features" de)
    (H5File r a)
  = (Ok (), H5File (<[l := H5Group (<[n := leaf_obj (fr, de)]> sub)]> r) a).
Proof.
  intros Hn Hl Hsub. rewrite bind_H5. unfold create_group. rewrite bind_H5.
  rewrite (target_link_name _ _ Hn). cbn [app].
  erewrite link_Ok; last first.
  { cbn [root]. rewrite (link_at_into _ _ _ _ _ _ Hl), link_at_one by done. done. }
  cbn [mret H5_ret attrs]. rewrite bind_H5. unfold setitem. rewrite target_frames. cbn [app].
  erewrite link_Ok; last first.
  { cbn [root]. erewrite link_at_into by apply lookup_insert_eq.
    erewrite link_at_into by apply lookup_insert_eq.
    rewrite link_at_one by apply lookup_empty. done. }
  cbn [attrs]. rewrite target_features. cbn [app].
  erewrite link_Ok; last first.
  { cbn [root]. erewrite link_at_into by apply lookup_insert_eq.
    erewrite link_at_into by apply lookup_insert_eq.
    rewrite link_at_one; [done|]. by rewrite lookup_insert_ne. }
  cbn [attrs mbind res_bind]. by rewrite !insert_insert_eq.
Qed.

Lemma tree_of_lookup t l :
  tree_of t !! l = (λ lm, H5Group (leaf_obj <$> lm)) <$> (t !! l).
Proof. unfold tree_of. by rewrite lookup_fmap. Qed.

Lemma tree_of_insert t l lm :
  tree_of (<[l := lm]> t) = <[l := H5Group (leaf_obj <$> lm)]> (tree_of t).
Proof. unfold tree_of. by rewrite fmap_insert. Qed.

Lemma lookup2_insert t r k :
  lookup2 (table_insert t r) k =
    if decide (k = record_key r) then Some (r.1.2, r.2) else lookup2 t k.
Proof.
  destruct r as [[[l n] fr] de], k as [l' n']. unfold lookup2, table_insert, record_key. simpl.
  destruct (decide (l' = l)) as [->|Hl].
  - rewrite lookup_insert_eq. simpl. destruct (decide (n' = n)) as [->|Hn].
    + rewrite decide_True by done. by rewrite lookup_insert_eq.
    + rewrite decide_False by congruence. rewrite lookup_insert_ne by done.
      destruct (t !! l); [done|]. simpl. by rewrite lookup_empty.
  - rewrite lookup_insert_ne by done. by rewrite decide_False by congruence.
Qed.

(** Writing one record of a new (label, name) adds it to the table. *)
Lemma save_record_table t a l n fr de :
  link_name l → link_name n → lookup2 t (l, n) = None →
  save_record (l, n, fr, de) (H5File (tree_of t) a)
  = (Ok (), H5File (tree_of (table_insert t (l, n, fr, de))) a).
Proof.
  intros Hl Hn Hfresh. unfold save_record. rewrite bind_H5.
  unfold require_group. rewrite (target_link_name _ _ Hl). cbn [app root].
  rewrite lookup_path_cons, tree_of_lookup. unfold lookup2 in Hfresh. simpl in Hfresh.
  unfold table_insert. cbn [fst snd]. rewrite tree_of_insert, fmap_insert.
  destruct (t !! l) as [lm|] eqn:Htl; simpl in *.
  - rewrite (write_leaf _ _ _ _ _ _ (leaf_obj <$> lm)); [done..| |].
    + by rewrite tree_of_lookup, Htl.
    + by rewrite lookup_fmap, Hfresh.
  - unfold create_group at 1. rewrite bind_H5, (target_link_name _ _ Hl). cbn [app].
    erewrite link_Ok; last first.
    { cbn [root]. rewrite link_at_one; [done|]. by rewrite tree_of_lookup, Htl. }
    cbn [mret H5_ret attrs].
    rewrite (write_leaf _ _ _ _ _ _ ∅); [|done|apply lookup_insert_eq|apply lookup_empty].
    by rewrite insert_insert_eq, fmap_empty.
Qed.

Lemma save_records_table rs t a :
  Forall (λ r, link_name r.1.1.1 ∧ link_name r.1.1.2) rs →
  NoDup (record_key <$> rs) →
  (∀ r, r ∈ rs → lookup2 t (record_key r) = None) →
  for_eachH save_record rs (H5File (tree_of t) a)
  = (Ok (), H5File (tree_of (foldl table_insert t rs)) a).
Proof.
  intros Hnames. revert t.
  induction Hnames as [|[[[l n] fr] de] rs [Hl Hn] _ IH]; intros t Hnd Hfresh; [done|].
  rewrite fmap_cons in Hnd. apply NoDup_cons in Hnd as [Hk Hnd]. simpl in Hl, Hn.
  cbn [for_eachH foldl]. rewrite bind_H5, save_record_table; [|done..|].
  2:{ apply (Hfresh (l, n, fr, de)). left. }
  apply IH; [done|]. intros r' Hr'. rewrite lookup2_insert.
  rewrite decide_False.
  - apply Hfresh. by right.
  - intros Heq. apply Hk. rewrite <-Heq. by apply list_elem_of_fmap_2.
Qed.

(** The metadata of the write are the attributes of the root. *)
Lemma foldl_insert_attrs (l : list (string * string)) (a0 : gmap string string) :
  NoDup l.*1 →
  foldl (λ a kv, <[kv.1 := kv.2]> a) a0 l = list_to_map l ∪ a0.
Proof.
  revert a0. induction l as [|[k v] l IH]; intros a0 Hnd; csimpl.
  - by rewrite (left_id_L ∅ (∪)).
  - apply NoDup_cons in Hnd as [Hk Hnd]. rewrite IH by done.
    rewrite <-insert_union_l. symmetry. apply insert_union_r.
    by apply not_elem_of_list_to_map_1.
Qed.

Lemma set_attrs_outcome (l : list (string * string)) r a0 :
  for_eachH (λ '(k, v), set_attr k v) l (H5File r a0)
  = (Ok (), H5File r (foldl (λ a kv, <[kv.1 := kv.2]> a) a0 l)).
Proof.
  revert a0. induction l as [|[k v] l IH]; intros a0; [done|].
  cbn [for_eachH foldl]. rewrite bind_H5. unfold set_attr at 1. cbn [root attrs fst snd].
  apply IH.
Qed.

(** *** Reading the table back *)

Lemma comprehension_pure {X Y} (f : X → res Y) (g : X → Y) l :
  (∀ x, x ∈ l → f x = Ok (g x)) → comprehension f l = Ok (g <$> l).
Proof.
  induction l as [|x l IH]; intros Hf; [done|]. simpl.
  rewrite Hf by left. simpl. rewrite IH; [done|]. intros y Hy. apply Hf. by right.
Qed.

Lemma read_leaf_obj dt l n v :
  read_leaf dt l (n, leaf_obj v) = Ok (coerce dt (l, n, v.1, v.2)).
Proof. destruct dt, v; reflexivity. Qed.

Lemma concat_fmap_bind {X Y} (f : X → list Y) l : concat (f <$> l) = l ≫= f.
Proof. induction l as [|x l IH]; csimpl; [done|]. by rewrite IH. Qed.

Lemma comprehension_fmap {X Y Z'} (f : Y → res Z') (g : X → Y) l :
  comprehension f (g <$> l) = comprehension (f ∘ g) l.
Proof. induction l as [|x l IH]; csimpl; [done|]. by rewrite IH. Qed.

Lemma read_label_table dt l (lm : gmap string (ndarray * ndarray)) :
  read_label dt (l, H5Group (leaf_obj <$> lm))
  = Ok ((λ leaf, coerce dt (l, leaf.1, leaf.2.1, leaf.2.2)) <$> map_to_list lm).
Proof.
  cbn [read_label h5_items mbind res_bind]. rewrite map_to_list_fmap, comprehension_fmap.
  apply comprehension_pure. intros [n v] _. apply read_leaf_obj.
Qed.

Lemma read_features_table t a la dt :
  read_features (H5File (tree_of t) a) la dt
  = Ok (of_records (flatten dt t), if la then Some a else None).
Proof.
  unfold read_features. cbn [root attrs]. unfold tree_of. rewrite map_to_list_fmap.
  rewrite comprehension_fmap.
  rewrite (comprehension_pure _
    (λ entry, (λ leaf, coerce dt (entry.1, leaf.1, leaf.2.1, leaf.2.2))
                <$> map_to_list entry.2)).
  - cbn [mbind res_bind]. by rewrite concat_fmap_bind.
  - intros [l lm] _. apply read_label_table.
Qed.

Lemma records_of_records rs : records (of_records rs) = rs.
Proof.
  unfold records, of_records. cbn [labels names frames features].
  induction rs as [|[[[l n] fr] de] rs IH]; csimpl; [done|]. by rewrite IH.
Qed.

Lemma record_key_coerce dt r : record_key (coerce dt r) = record_key r.
Proof. done. Qed.

Lemma lookup2_empty k : lookup2 ∅ k = None.
Proof. unfold lookup2. by rewrite lookup_empty. Qed.

Lemma elem_of_flatten dt t r' :
  r' ∈ flatten dt t ↔
    ∃ l n v, r' = coerce dt (l, n, v.1, v.2) ∧ lookup2 t (l, n) = Some v.
Proof.
  unfold flatten, lookup2. rewrite list_elem_of_bind. split.
  - intros ([l lm] & ([n v] & -> & Hn)%list_elem_of_fmap & Hl).
    apply elem_of_map_to_list in Hl, Hn. simpl in *.
    exists l, n, v. split; [done|]. by rewrite Hl.
  - intros (l & n & v & -> & Hl). simpl in Hl.
    destruct (t !! l) as [lm|] eqn:Htl; [|done]. simpl in Hl.
    exists (l, lm). split; [|by apply elem_of_map_to_list].
    apply list_elem_of_fmap. exists (n, v). split; [done|]. by apply elem_of_map_to_list.
Qed.

Lemma record_keys_flatten dt t :
  record_key <$> flatten dt t
  = map_to_list t ≫= λ entry, (entry.1,.) <$> (map_to_list entry.2).*1.
Proof.
  unfold flatten. induction (map_to_list t) as [|[l lm] es IH]; csimpl; [done|].
  rewrite fmap_app, IH. f_equal. rewrite <-!list_fmap_compose.
  apply list_fmap_ext. by intros i [n v] _.
Qed.

Lemma NoDup_keys_flatten dt t : NoDup (record_key <$> flatten dt t).
Proof.
  rewrite record_keys_flatten. apply NoDup_bind.
  - intros [l1 lm1] [l2 lm2] [l n] H1 H2 Hk1 Hk2. simpl in *.
    apply list_elem_of_fmap in Hk1 as (? & [= <- <-] & _).
    apply list_elem_of_fmap in Hk2 as (? & [= <- <-] & _).
    apply elem_of_map_to_list in H1, H2. by simplify_eq.
  - intros [l lm] _. simpl. apply NoDup_fmap_2; [by intros ?? [= ->]|].
    apply NoDup_fst_map_to_list.
  - apply NoDup_map_to_list.
Qed.

Lemma lookup2_foldl rs t k v :
  NoDup (record_key <$> rs) →
  lookup2 (foldl table_insert t rs) k = Some v ↔
    (k.1, k.2, v.1, v.2) ∈ rs ∨ ((k ∉ record_key <$> rs) ∧ lookup2 t k = Some v).
Proof.
  revert t. induction rs as [|r rs IH]; intros t Hnd.
  { cbn [foldl]. rewrite fmap_nil. split.
    - intros Hl. right. split; [apply not_elem_of_nil|done].
    - intros [Hin|[_ Hl]]; [by apply elem_of_nil in Hin|done]. }
  rewrite fmap_cons in Hnd. apply NoDup_cons in Hnd as [Hr Hnd].
  cbn [foldl]. rewrite (IH _ Hnd), lookup2_insert, fmap_cons.
  assert (∀ x, x ∈ rs → record_key x ≠ record_key r) as Hother.
  { intros x Hx Heq. apply Hr. rewrite <-Heq. by apply list_elem_of_fmap_2. }
  destruct r as [[[l n] fr] de], k as [kl kn], v as [vf vd].
  unfold record_key in *. cbn [fst snd] in *.
  destruct (decide ((kl, kn) = (l, n))) as [[= -> ->]|Hne].
  - split.
    + intros [Hin|[_ [= <- <-]]]; [by destruct (Hother _ Hin)|]. left. left.
    + intros [[[= <- <-]|Hin]%elem_of_cons|[Hnin _]].
      * right. split; [done|]. done.
      * by destruct (Hother _ Hin).
      * destruct Hnin. left.
  - split.
    + intros [Hin|[Hnin Hl]]; [left; by right|]. right. split; [|done].
      by intros [?|?]%elem_of_cons.
    + intros [[[= -> ->]|Hin]%elem_of_cons|[Hnin Hl]]; [done|by left|].
      right. split; [|done]. intros ?. apply Hnin. by right.
Qed.

Lemma NoDup_fmap_inj_on {X Y} (f : X → Y) (l : list X) x y :
  NoDup (f <$> l) → x ∈ l → y ∈ l → f x = f y → x = y.
Proof.
  induction l as [|z l IH]; csimpl; [by intros _ ?%elem_of_nil|].
  intros [Hz Hnd]%NoDup_cons [->|Hx]%elem_of_cons [->|Hy]%elem_of_cons Hf; [done| | |by apply IH].
  - destruct Hz. rewrite Hf. by apply list_elem_of_fmap_2.
  - destruct Hz. rewrite <-Hf. by apply list_elem_of_fmap_2.
Qed.

(** Read back, the table holds the records that were written, each once. *)
Lemma flatten_table_perm dt rs :
  NoDup (record_key <$> rs) →
  flatten dt (foldl table_insert ∅ rs) ≡ₚ coerce dt <$> rs.
Proof.
  intros Hnd. apply NoDup_Permutation.
  - eapply NoDup_fmap_1, NoDup_keys_flatten.
  - apply (NoDup_fmap_1 record_key). rewrite <-list_fmap_compose.
    erewrite list_fmap_ext; [exact Hnd|]. by intros i r _.
  - intros r'. rewrite elem_of_flatten, list_elem_of_fmap. split.
    + intros (l & n & v & -> & Hl).
      apply (lookup2_foldl _ _ _ _ Hnd) in Hl as [Hin|[_ Hl]].
      * by eexists.
      * by rewrite lookup2_empty in Hl.
    + intros ([[[l n] fr] de] & -> & Hin). exists l, n, (fr, de). split; [done|].
      apply lookup2_foldl; [done|]. by left.
Qed.

#[local] Instance record_le_total : Total record_le.
Proof. intros r1 r2. apply (total pair_le). Qed.
#[local] Instance record_le_trans : Transitive record_le.
Proof. intros r1 r2 r3. apply (transitivity (R := pair_le)). Qed.

(** Sorted by (label, name), two arrangements of records with distinct
    keys are the same list. *)
Lemma sort_records_unique rs1 rs2 :
  rs1 ≡ₚ rs2 → NoDup (record_key <$> rs2) → sort_records rs1 = sort_records rs2.
Proof.
  intros Hperm Hnd. unfold sort_records. apply (StronglySorted_unique_strong record_le).
  - intros r1 r2 H1 H2 H12 H21.
    rewrite merge_sort_Permutation in H1, H2. rewrite Hperm in H1.
    apply (NoDup_fmap_inj_on record_key rs2); [done..|].
    by apply (anti_symm pair_le).
  - apply StronglySorted_merge_sort; apply _.
  - apply StronglySorted_merge_sort; apply _.
  - by rewrite !merge_sort_Permutation.
Qed.

(** X16: the round trip on names of one link: an archive whose labels and
    image names have no [/] and whose (label, name) pairs are distinct is
    written to a fresh file and read back; sorted by (label, name), the
    records read are the records written, the descriptors coerced to the
    dtype asked for on read, and the metadata come back as they were
    given. *)
Theorem round_trip_link_names (feats : Features) (attrs : gmap string string)
    (load_attrs : bool) (features_dtype : option dtype) :
  Forall (λ r, link_name r.1.1.1 ∧ link_name r.1.1.2) (records feats) →
  NoDup (record_key <$> records feats) →
  ∃ f back,
    save_features feats attrs (H5File ∅ ∅) = (Ok (), f) ∧
    read_features f load_attrs features_dtype
    = Ok (back, if load_attrs then Some attrs else None) ∧
    records back ≡ₚ coerce features_dtype <$> records feats ∧
    sort_records (records back) = sort_records (coerce features_dtype <$> records feats).
Proof.
  intros Hnames Hnd.
  exists (H5File (tree_of (foldl table_insert ∅ (records feats))) attrs),
         (of_records (flatten features_dtype (foldl table_insert ∅ (records feats)))).
  assert (NoDup (record_key <$> (coerce features_dtype <$> records feats))) as Hnd'.
  { rewrite <-list_fmap_compose. erewrite list_fmap_ext; [exact Hnd|]. by intros i r _. }
  split; [|split; [apply read_features_table|rewrite records_of_records; split]].
  - unfold save_features. rewrite bind_H5.
    replace (H5File ∅ ∅) with (H5File (tree_of ∅) ∅)
      by (unfold tree_of; by rewrite fmap_empty).
    rewrite save_records_table; [|done..|by intros; apply lookup2_empty].
    rewrite set_attrs_outcome, foldl_insert_attrs by apply NoDup_fst_map_to_list.
    by rewrite list_to_map_to_list, (right_id_L ∅ (∪)).
  - by apply flatten_table_perm.
  - apply sort_records_unique; [by apply flatten_table_perm|done].
Qed.
End round_trip.

Lemma round_trip_link_names_witness :
  let C := Toy.collaborators ∅ in
  let feats := @mkFeatures C ["b"; "a"; "a"] ["i3"; "i2"; "i1"] [[3]; [2]; [1]] [[6]; [5]; [4]] in
  ∃ f back,
    @save_features C feats {[ "args" := "{}" ]} (@H5File C ∅ ∅) = (Ok (), f) ∧
    @read_features C f true None = Ok (back, Some {[ "args" := "{}" ]}) ∧
    @sort_records C (records back) = [("a", "i1", [1], [4]); ("a", "i2", [2], [5]); ("b", "i3", [3], [6])].
Proof.
  intros C feats.
  destruct (@round_trip_link_names C feats {[ "args" := "{}" ]} true None)
    as (f & back & Hsave & Hread & _ & Hsort).
  - repeat constructor; by_computation.
  - by_computation.
  - exists f, back. split; [exact Hsave|]. split; [exact Hread|]. rewrite Hsort.
    vm_compute. reflexivity.
Defined.

End ArchiveFacts.

(** ** The image backends *)

Module BackendFacts.
Section backend_facts.
Context `{Collaborators}.

Lemma known_mode_has_branch m : m ∈ IMREAD_MODES → has_branch m = true.
Proof.
  intros Hm. unfold IMREAD_MODES in Hm.
  repeat (apply elem_of_cons in Hm as [->|Hm]; [reflexivity|]).
  by apply elem_of_nil in Hm.
Qed.

(** The attempts that fail are passed over; what they leave behind is the
    binding of [imread]. *)
Lemma find_imread_loop_failed all pre rest bound :
  Forall (λ x, has_branch x = true ∧ backend_probe x ≠ Imports) pre →
  find_imread_loop all (pre ++ rest) bound
  = find_imread_loop all rest
      (match stale_reader pre with Some b => Some b | None => bound end).
Proof.
  intros Hpre. revert bound. induction Hpre as [|x pre [Hb Hp] _ IH]; intros bound.
  { done. }
  cbn [app find_imread_loop]. rewrite Hb. unfold stale_reader.
  destruct (backend_probe x) eqn:Hx; [done| |].
  - rewrite IH. rewrite filter_cons_False; [done|]. intros [_ ?]. congruence.
  - rewrite IH. destruct (String.prefix "skimage-" x) eqn:Hs.
    + rewrite filter_cons_True by done. fold (stale_reader pre).
      unfold stale_reader.
      destruct (filter _ pre) as [|y ys] eqn:Hf; [done|].
      cbn [last]. by destruct (last (y :: ys)) eqn:Hl; [|by apply last_None in Hl].
    + rewrite filter_cons_False; [done|]. intros [? _]. congruence.
Qed.

Lemma find_imread_loop_Ok_inv all modes bound m b :
  Forall (λ x, has_branch x = true) modes →
  find_imread_loop all modes bound = Ok (m, b) →
  b = m ∧ ∃ pre post, modes = pre ++ m :: post ∧ backend_probe m = Imports ∧
                      Forall (λ x, backend_probe x ≠ Imports) pre.
Proof.
  intros Hk. revert bound. induction Hk as [|x modes Hb _ IH]; intros bound; [done|].
  cbn [find_imread_loop]. rewrite Hb.
  destruct (backend_probe x) eqn:Hx.
  - intros [= <- <-]. split; [done|]. exists [], modes. by repeat split.
  - intros (-> & pre & post & -> & Hm & Hpre)%IH. split; [done|].
    exists (x :: pre), post. repeat split; [done|]. constructor; [congruence|done].
  - intros (-> & pre & post & -> & Hm & Hpre)%IH. split; [done|].
    exists (x :: pre), post. repeat split; [done|]. constructor; [congruence|done].
Qed.


Lemma Forall_known_failed (l : list string) :
  Forall (λ x, x ∈ IMREAD_MODES) l → Forall (λ x, backend_probe x ≠ Imports) l →
  Forall (λ x, has_branch x = true ∧ backend_probe x ≠ Imports) l.
Proof.
  intros Hk Hf. apply Forall_and. split; [|done].
  eapply Forall_impl; [exact Hk|]. apply known_mode_has_branch.
Qed.


(** X3: a name that is none of the backends the function knows, reached
    after known backends that failed to import, never gives the
    ImportError.  It raises UnboundLocalError, unless the plugin of an
    earlier [skimage] backend failed to load: then the name is returned as
    the working mode, with the reader that this earlier attempt left
    behind. *)
Theorem unknown_mode_is_no_import_error (pre post : list string) (m : string) :
  Forall (λ x, x ∈ IMREAD_MODES) pre →
  Forall (λ x, backend_probe x ≠ Imports) pre →
  has_branch m = false →
  _find_working_imread (Modes (pre ++ m :: post)) =
    match stale_reader pre with
    | Some b => Ok (m, b)
    | None => Raise (UnboundLocalError "imread")
    end.
Proof.
  intros Hk Hf Hm. unfold _find_working_imread.
  rewrite find_imread_loop_failed by (by apply Forall_known_failed).
  cbn [find_imread_loop]. rewrite Hm. by destruct (stale_reader pre).
Qed.

(** X4: the backend is looked for once, before the images are loaded.
    When the search returns a backend under its own name, the closure of
    line 172, which is given that name alone, loads every image exactly as
    [_load_features] does with the whole preference list. *)
Theorem backend_found_once (modes : list string) (m b : string)
    (filename : string) (size : option (option Z * option Z)) (kw : kwargs) :
  Forall (λ x, x ∈ IMREAD_MODES) modes →
  _find_working_imread (Modes modes) = Ok (m, b) →
  b = m ∧
  load_features_with m size kw filename = _load_features filename (Modes modes) size kw.
Proof.
  intros Hk Hm.
  assert (Forall (λ x, has_branch x = true) modes) as Hb.
  { eapply Forall_impl; [exact Hk|]. apply known_mode_has_branch. }
  pose proof Hm as Hm'. unfold _find_working_imread in Hm'.
  apply find_imread_loop_Ok_inv in Hm' as (-> & pre & post & Hmodes & Hp & _); [|done].
  split; [done|].
  unfold load_features_with, _load_features. rewrite Hm.
  unfold _find_working_imread. cbn [find_imread_loop].
  rewrite known_mode_has_branch, Hp; [done|].
  rewrite Forall_forall in Hk. apply Hk. rewrite Hmodes, elem_of_app, elem_of_cons. auto.
Qed.
End backend_facts.


Lemma unknown_mode_is_no_import_error_witness :
  let C := Toy.collaborators ∅ in
  @_find_working_imread C (Modes ["PIL"; "cv2"]) = Raise (UnboundLocalError "imread") ∧
  @_find_working_imread C (Modes ["skimage-pil"; "PIL"; "cv2"]) = Ok ("PIL", "skimage-pil").
Proof.
  intros C. split.
  - apply (@unknown_mode_is_no_import_error C [] ["cv2"] "PIL"); [constructor..|reflexivity].
  - apply (@unknown_mode_is_no_import_error C ["skimage-pil"] ["cv2"] "PIL").
    + repeat constructor; by_computation.
    + repeat constructor; by_computation.
    + reflexivity.
Defined.

Lemma backend_found_once_witness :
  let C := Toy.collaborators ∅ in
  @load_features_with C "cv2" None () "one/a.jpg"
  = @_load_features C "one/a.jpg" (Modes IMREAD_MODES) None () ∧
  @_load_features C "one/a.jpg" (Modes IMREAD_MODES) None () = Ok ([9], [9; 7]).
Proof.
  intros C. split; [|vm_compute; reflexivity].
  refine (proj2 (@backend_found_once C IMREAD_MODES "cv2" "cv2" "one/a.jpg" None () _ _)).
  - apply Forall_forall. auto.
  - vm_compute. reflexivity.
Defined.

End BackendFacts.

(** ** The uniform sampler on every input *)

Module UniformFacts.
Import SamplerFacts.




End UniformFacts.

(** ** How a call ends *)

Module OutcomeFacts.
Import SelectFacts ResolveFacts DispatchFacts.

Section outcome_facts.
Context `{Collaborators}.

(** *** What a resolution that succeeds has seen *)

Lemma scan_file_Ok_dot ext d lab st fname st' :
  scan_file ext d lab st fname = Ok st' → has_dot fname.
Proof.
  intros Hs. destruct (decide (has_dot fname)) as [|Hn]; [done|].
  by rewrite scan_file_no_dot in Hs.
Qed.

Lemma scan_files_Ok_dot ext d lab l st st' :
  for_each (scan_file ext d lab) st l = Ok st' → Forall has_dot l.
Proof.
  revert st. induction l as [|f l IH]; intros st; [constructor|].
  rewrite for_each_cons.
  destruct (scan_file ext d lab st f) as [st1|e] eqn:Hf; [|done].
  intros Hl. constructor; [by eapply scan_file_Ok_dot|by eapply IH].
Qed.

Lemma scan_dirs_Ok_listable ext es st st' :
  for_each (scan_dir ext) st es = Ok st' → listable_dotted es.
Proof.
  revert st. induction es as [|[d lab] es IH]; intros st; [constructor|].
  rewrite for_each_cons.
  destruct (os_listdir d) as [l|e] eqn:Hl.
  - rewrite (scan_dir_Ok _ _ _ _ _ Hl).
    destruct (for_each (scan_file ext d lab) st l) as [st1|e] eqn:Hfs; [|done].
    intros Hrest. constructor; [|by eapply IH].
    exists l. split; [done|]. by eapply scan_files_Ok_dot.
  - unfold scan_dir. by rewrite Hl.
Qed.

(** A resolution that returns has listed every directory, found a dot in
    every name and no identity twice; it holds the candidates, label by
    label. *)
Lemma resolve_Ok_inv ext (dirs : gmap string string) ims :
  resolve ext dirs = Ok ims →
  let cands := candidates ext (map_to_list dirs) in
  listable_dotted (map_to_list dirs) ∧ NoDup (identity <$> cands) ∧
  ims = ims_by_label (foldl (add_entry ext) (Resolved ∅ ∅) (map_to_list dirs)) ∧
  (∀ l, ims !!! l = images_of l cands) ∧
  resolved_images ims ≡ₚ cands.
Proof.
  intros Hr cands. unfold resolve in Hr.
  destruct (for_each (scan_dir ext) (Resolved ∅ ∅) (map_to_list dirs)) as [st|e] eqn:Hscan;
    [|done].
  injection Hr as <-.
  pose proof (scan_dirs_Ok_listable _ _ _ _ Hscan) as Hok.
  rewrite scan_dirs_spec in Hscan by done. fold cands in Hscan.
  destruct (first_dup _ (identity <$> cands)) as [k|] eqn:Hfd; [done|].
  injection Hscan as <-. apply first_dup_None in Hfd as [Hnd _].
  assert (∀ l, ims_by_label (foldl (add_entry ext) (Resolved ∅ ∅) (map_to_list dirs)) !!! l
               = images_of l cands) as Hims.
  { intros l. rewrite ims_foldl_add_entry. simpl. by rewrite lookup_total_empty. }
  split; [done|]. split; [done|]. split; [done|]. split; [done|].
  apply NoDup_Permutation.
  - apply NoDup_resolved_images. intros l. rewrite Hims. apply NoDup_images_of.
    by eapply NoDup_fmap_1.
  - by eapply NoDup_fmap_1.
  - intros [[l d] f]. by rewrite elem_of_resolved_images, Hims, elem_of_images_of.
Qed.

(** Every label of the resolved dict has an image: a key appears with its
    first image. *)
Lemma add_image_nonempty d lab st fname :
  map_Forall (λ _ v, v ≠ []) (ims_by_label st) →
  map_Forall (λ _ v, v ≠ []) (ims_by_label (add_image d lab st fname)).
Proof.
  intros Hst. unfold add_image. simpl. apply map_Forall_insert_2; [|done].
  by destruct (ims_by_label st !!! lab).
Qed.

Lemma add_entry_nonempty ext es st :
  map_Forall (λ _ v, v ≠ []) (ims_by_label st) →
  map_Forall (λ _ v, v ≠ []) (ims_by_label (foldl (add_entry ext) st es)).
Proof.
  revert st. induction es as [|entry es IH]; intros st Hst; [done|].
  cbn [foldl]. apply IH. unfold add_entry.
  generalize (filter (qualifies ext) (listing entry.1)). intros l.
  revert st Hst. induction l as [|f l IHl]; intros st Hst; [done|].
  cbn [foldl]. apply IHl. by apply add_image_nonempty.
Qed.


(** *** The selection *)

Lemma comprehensionM_pure {X Y} (f : X → M Y) (g : X → Y) l w :
  (∀ x w, f x w = (Ok (g x), w)) → comprehensionM f l w = (Ok (g <$> l), w).
Proof.
  intros Hf. induction l as [|x l IH]; [done|].
  cbn [comprehensionM]. rewrite bind_M, Hf, bind_M, IH. done.
Qed.



(** Without a cap every image of every label is selected. *)
Lemma select_uncapped (ims : gmap string (list (string * string))) w :
  select (λ x, mret x) ims w
  = (unzip3 (map_to_list ims ≫= λ entry, row entry.1 <$> sorted_pairs entry.2), w).
Proof.
  unfold select. rewrite bind_M.
  rewrite (comprehensionM_pure _ (λ entry, row entry.1 <$> sorted_pairs entry.2)).
  - by rewrite ArchiveFacts.concat_fmap_bind.
  - by intros [label images] w0.
Qed.

Lemma select_empty sample w :
  select sample (∅ : gmap string (list (string * string))) w = (Raise UnpackError, w).
Proof. unfold select. by rewrite map_to_list_empty. Qed.

Lemma rows_perm (es : list (string * list (string * string))) :
  es ≫= (λ entry, row entry.1 <$> sorted_pairs entry.2)
  ≡ₚ row_of <$> (es ≫= λ '(label, images), (λ '(d, f), (label, d, f)) <$> images).
Proof.
  induction es as [|[label images] es IH]; csimpl; [done|].
  rewrite fmap_app, IH. apply Permutation_app; [|done].
  rewrite sorted_pairs_perm, <-list_fmap_compose.
  apply reflexive_eq, list_fmap_ext. by intros i [d f] _.
Qed.

Lemma zip_fmap_fmap {X Y Z'} (f : X → Y) (g : X → Z') (l : list X) :
  zip (f <$> l) (g <$> l) = (λ x, (f x, g x)) <$> l.
Proof. induction l as [|x l IH]; csimpl; [done|]. by rewrite IH. Qed.

Lemma unzip3_inv {X Y Z'} (l : list (X * Y * Z')) a b c :
  unzip3 l = Ok (a, b, c) → l ≠ [] ∧ a = l.*1.*1 ∧ b = l.*1.*2 ∧ c = l.*2.
Proof. destruct l; [done|]. by intros [= <- <- <-]. Qed.

Lemma select_Ok_lengths sample ims w labels names paths w1 :
  select sample ims w = (Ok (labels, names, paths), w1) →
  labels ≠ [] ∧ length names = length labels ∧ length paths = length labels.
Proof.
  unfold select. rewrite bind_M.
  destruct (comprehensionM _ _ w) as [[rows|e] w0]; [|done].
  unfold lift. intros [= Hu <-]. apply unzip3_inv in Hu as (Hne & -> & -> & ->).
  rewrite !length_fmap. split; [|done]. by destruct (concat rows).
Qed.

(** *** The dispatch *)

Lemma choose_map_inv par w do_map w' :
  choose_map par w = (Ok do_map, w') →
  (par = ParFalse ∧ do_map = strict_map ∧ w' = w) ∨
  (par = ParObject do_map ∧ w' = w) ∨
  (∃ n, pool_size par = Some n ∧ 1 ≤ n ∧ do_map = pool_map ∧
        w' = World (w_rng w) (w_pools w ++ [Pool n RUN])).
Proof.
  destruct par as [| | |n|m]; cbn [choose_map].
  - intros [= <- <-]. by left.
  - rewrite bind_M. unfold mp_Pool. simpl. case_decide; [done|].
    intros [= <- <-]. right. right. exists cpu_count. repeat split; try done; lia.
  - rewrite bind_M. unfold mp_Pool. simpl. case_decide; [done|].
    intros [= <- <-]. right. right. exists cpu_count. repeat split; try done; lia.
  - rewrite bind_M. unfold mp_Pool. simpl. case_decide; [done|].
    intros [= <- <-]. right. right. exists n. repeat split; try done; lia.
  - intros [= <- <-]. right. by left.
Qed.


Lemma choose_map_too_small par w n :
  pool_size par = Some n → n < 1 →
  choose_map par w = (Raise (ValueError "Number of processes must be at least 1"), w).
Proof.
  destruct par as [| | |k|m]; simpl; try done; intros [= <-] Hn;
    rewrite bind_M; unfold mp_Pool; simpl; by rewrite decide_True.
Qed.

(** What the dispatch returns, given the map it runs the extraction
    through. *)
Lemma dispatch_with modes par size kw labels names paths w do_map w' :
  choose_map par w = (Ok do_map, w') →
  dispatch modes par size kw (labels, names, paths) w
  = (mb ← _find_working_imread modes;
     results ← do_map (load_features_with mb.1 size kw) paths;
     fd ← unzip2 results;
     Ok (mkFeatures labels names fd.1 fd.2), w').
Proof.
  intros Hmap. unfold dispatch. rewrite bind_M, Hmap, bind_lift.
  destruct (_find_working_imread modes) as [[m b]|e]; [|done].
  cbn [mbind res_bind fst]. rewrite bind_lift.
  destruct (do_map _ paths) as [results|e]; [|done].
  cbn [mbind res_bind]. rewrite bind_lift.
  by destruct (unzip2 results) as [[fr de]|e].
Qed.

Lemma dispatch_Ok_inv modes par size kw labels names paths w F w' :
  dispatch modes par size kw (labels, names, paths) w = (Ok F, w') →
  ∃ do_map w0 m b results,
    choose_map par w = (Ok do_map, w0) ∧ _find_working_imread modes = Ok (m, b) ∧
    do_map (load_features_with m size kw) paths = Ok results ∧ results ≠ [] ∧
    F = mkFeatures labels names results.*1 results.*2.
Proof.
  destruct (choose_map par w) as [[do_map|e] w0] eqn:Hmap.
  - rewrite (dispatch_with _ _ _ _ _ _ _ _ _ _ Hmap).
    destruct (_find_working_imread modes) as [[m b]|e]; [|done].
    cbn [mbind res_bind fst].
    destruct (do_map _ paths) as [results|e] eqn:Hres; [|done].
    cbn [mbind res_bind]. destruct results as [|r results]; [done|].
    intros [= <- <-]. by exists do_map, w0, m, b, (r :: results).
  - unfold dispatch. by rewrite bind_M, Hmap.
Qed.

(** A pool returns a list exactly when the sequential map does, and then
    the same list. *)
Lemma pool_map_iff {A B} (f : A → res B) xs ys :
  pool_map f xs = Ok ys ↔ comprehension f xs = Ok ys.
Proof.
  split; [|apply pool_map_Ok].
  intros Hp.
  assert (Forall (λ x, is_Ok (f x)) xs) as Hall.
  { apply Forall_forall. intros x Hx.
    destruct (f x) as [y|e] eqn:Hfx; [by eexists|].
    destruct (pool_map_Raise f xs x e Hx Hfx) as [e' He']. congruence. }
  destruct (comprehension_all_Ok _ _ Hall) as [ys' Hys'].
  rewrite (pool_map_Ok f xs ys' Hys') in Hp. congruence.
Qed.

Lemma extract_features_inv dirs cap sname ext modes par size kw w F w' :
  extract_features dirs cap sname ext modes par size kw w = (Ok F, w') →
  ∃ ims sample labels names paths w1,
    resolve ext (label_dirs dirs) = Ok ims ∧ choose_sample cap sname = Ok sample ∧
    select sample ims w = (Ok (labels, names, paths), w1) ∧
    dispatch modes par size kw (labels, names, paths) w1 = (Ok F, w').
Proof.
  unfold extract_features. rewrite bind_lift.
  destruct (resolve ext (label_dirs dirs)) as [ims|e]; [|done].
  rewrite bind_lift. destruct (choose_sample cap sname) as [sample|e]; [|done].
  rewrite bind_M. destruct (select sample ims w) as [[[[labels names] paths]|e] w1] eqn:Hsel;
    [|done].
  intros Hd. by exists ims, sample, labels, names, paths, w1.
Qed.

Lemma extract_features_selected dirs cap sname ext modes par size kw w ims sample sel w1 :
  resolve ext (label_dirs dirs) = Ok ims → choose_sample cap sname = Ok sample →
  select sample ims w = (Ok sel, w1) →
  extract_features dirs cap sname ext modes par size kw w
  = dispatch modes par size kw sel w1.
Proof.
  intros Hres Hsample Hsel. unfold extract_features.
  by rewrite bind_lift, Hres, bind_lift, Hsample, bind_M, Hsel.
Qed.

(** X5: when the directories hold no image at all - every directory can
    be listed, every name has a dot, no name has one of the extensions -
    the call does not return an empty result: the unpacking of line 151
    raises ValueError, before a pool is created or a backend looked for. *)
Theorem no_image_is_an_error (dirs : dirs_arg) (cap : option Z) (sname : string)
    (ext : gset string) (modes : modes_arg) (par : parallel_arg)
    (size : option (option Z * option Z)) (kw : kwargs) (w : world) :
  listable_dotted (map_to_list (label_dirs dirs)) →
  candidates ext (map_to_list (label_dirs dirs)) = [] →
  is_Ok (choose_sample cap sname) →
  resolve ext (label_dirs dirs) = Ok ∅ ∧
  extract_features dirs cap sname ext modes par size kw w = (Raise UnpackError, w).
Proof.
  intros Hok Hnone [sample Hsample].
  assert (resolve ext (label_dirs dirs) = Ok ∅) as Hres.
  { unfold resolve. rewrite scan_dirs_spec by done. rewrite Hnone. cbn [fmap list_fmap first_dup].
    cbn [mbind res_bind]. f_equal.
    apply map_eq. intros l. rewrite lookup_empty.
    apply eq_None_not_Some. intros [images Hl].
    pose proof (lookup_total_correct _ _ _ Hl) as Ht.
    rewrite ims_foldl_add_entry, Hnone in Ht. simpl in Ht. rewrite lookup_total_empty in Ht.
    subst images.
    eapply (add_entry_nonempty ext _ (Resolved ∅ ∅)); [apply map_Forall_empty|exact Hl|done]. }
  split; [done|]. unfold extract_features.
  rewrite bind_lift, Hres, bind_lift, Hsample, bind_M. by rewrite select_empty.
Qed.


(** X7: without a cap, a call that returns has returned every image:
    the (label, name) pairs of the result, taken side by side, are the
    identities of the qualifying files of the directories, each exactly
    once. *)
Theorem uncapped_call_returns_every_image (dirs : dirs_arg) (sname : string)
    (ext : gset string) (modes : modes_arg) (par : parallel_arg)
    (size : option (option Z * option Z)) (kw : kwargs) (w w' : world) (F : Features) :
  extract_features dirs None sname ext modes par size kw w = (Ok F, w') →
  let cands := candidates ext (map_to_list (label_dirs dirs)) in
  zip (labels F) (names F) ≡ₚ identity <$> cands ∧
  NoDup (identity <$> cands) ∧
  length (names F) = length (labels F) ∧ cands ≠ [].
Proof.
  intros (ims & sample & ls & ns & ps & w1 & Hres & Hsample & Hsel & Hd)%extract_features_inv
    cands.
  injection Hsample as <-.
  apply dispatch_Ok_inv in Hd as (do_map & w0 & m & b & results & _ & _ & _ & _ & ->).
  cbn [labels names].
  apply resolve_Ok_inv in Hres as (_ & Hnd & _ & _ & Hperm). fold cands in Hnd, Hperm.
  rewrite select_uncapped in Hsel. injection Hsel as Hu _.
  apply unzip3_inv in Hu as (Hne & -> & -> & _).
  set (rows := map_to_list ims ≫= _) in *.
  assert (rows ≡ₚ row_of <$> cands) as Hrows.
  { unfold rows. rewrite rows_perm. by apply fmap_Permutation. }
  split; [|split; [done|split]].
  - rewrite <-!list_fmap_compose, zip_fmap_fmap.
    rewrite (fmap_Permutation _ _ _ Hrows), <-list_fmap_compose.
    apply reflexive_eq, list_fmap_ext. by intros i [[l d] f] _.
  - by rewrite !length_fmap.
  - intros Hc. rewrite Hc in Hrows. by apply Permutation_nil_r in Hrows.
Qed.

(** X8: a call that runs sequentially or through a pool returns four
    sequences of one length, which is not zero; [save_features] then
    writes one record for each image. *)
Theorem features_have_one_length (dirs : dirs_arg) (cap : option Z) (sname : string)
    (ext : gset string) (modes : modes_arg) (par : parallel_arg)
    (size : option (option Z * option Z)) (kw : kwargs) (w w' : world) (F : Features) :
  (∀ m, par ≠ ParObject m) →
  extract_features dirs cap sname ext modes par size kw w = (Ok F, w') →
  labels F ≠ [] ∧ length (names F) = length (labels F) ∧
  length (frames F) = length (labels F) ∧ length (features F) = length (labels F) ∧
  length (records F) = length (labels F).
Proof.
  intros Hpar (ims & sample & ls & ns & ps & w1 & _ & _ & Hsel & Hd)%extract_features_inv.
  apply select_Ok_lengths in Hsel as (Hne & Hns & Hps).
  apply dispatch_Ok_inv in Hd as (do_map & w0 & m & b & results & Hmap & _ & Hres & _ & ->).
  assert (length results = length ps) as Hlen.
  { apply choose_map_inv in Hmap as [(_ & -> & _)|[(-> & _)|(n & _ & _ & -> & _)]].
    - apply comprehension_Ok, Forall2_length in Hres. done.
    - by destruct (Hpar do_map).
    - apply pool_map_iff, comprehension_Ok, Forall2_length in Hres. done. }
  cbn [labels names frames features]. rewrite !length_fmap.
  split; [done|]. split; [done|]. split; [lia|]. split; [lia|].
  unfold records. cbn [labels names frames features].
  assert (∀ (a b : list string) (c d : list ndarray),
            length b = length a → length c = length a → length d = length a →
            length (izip4 a b c d) = length a) as Hzip.
  { induction a as [|x a IH]; intros [|y b'] [|z c] [|u d]; simpl; try done.
    intros. f_equal. apply IH; lia. }
  apply Hzip; rewrite ?length_fmap; lia.
Qed.

(** X9: a pool changes nothing in what the call returns.  With a pool
    of at least one process created by the call, the call returns a result
    exactly when the sequential call returns it. *)
Theorem pool_returns_what_serial_returns (dirs : dirs_arg) (cap : option Z) (sname : string)
    (ext : gset string) (modes : modes_arg) (par : parallel_arg)
    (size : option (option Z * option Z)) (kw : kwargs) (w : world) (n : Z) (F : Features) :
  pool_size par = Some n → 1 ≤ n →
  (extract_features dirs cap sname ext modes par size kw w).1 = Ok F ↔
  (extract_features dirs cap sname ext modes ParFalse size kw w).1 = Ok F.
Proof.
  intros Hsize Hn. unfold extract_features. rewrite !bind_lift.
  destruct (resolve ext (label_dirs dirs)) as [ims|e]; [|done].
  rewrite !bind_lift. destruct (choose_sample cap sname) as [sample|e]; [|done].
  rewrite !bind_M. destruct (select sample ims w) as [[[[ls ns] ps]|e] w1]; [|done].
  assert (dispatch_mode par) as Hmode by (destruct par; simpl in *; by simplify_eq).
  assert (choose_map par w1 = (Ok pool_map, World (w_rng w1) (w_pools w1 ++ [Pool n RUN])))
    as Hpool.
  { destruct par as [| | |k|m]; simpl in Hsize; try done; injection Hsize as <-;
      cbn [choose_map]; rewrite bind_M, mp_Pool_Ok by done; done. }
  rewrite (dispatch_with _ _ _ _ _ _ _ _ _ _ Hpool).
  rewrite (dispatch_with _ ParFalse _ _ _ _ _ _ strict_map w1) by done.
  cbn [fst]. destruct (_find_working_imread modes) as [[m b]|e]; [|done].
  cbn [mbind res_bind fst]. unfold strict_map.
  destruct (comprehension (load_features_with m size kw) ps) as [results|e] eqn:Hser.
  - by rewrite (pool_map_Ok _ _ _ Hser).
  - destruct (pool_map (load_features_with m size kw) ps) as [results|e'] eqn:Hpar; [|done].
    apply pool_map_iff in Hpar. congruence.
Qed.

(** X10: a pool of no process.  When [parallel] asks for a pool of less
    than one process, the call raises the ValueError of [multiprocessing]
    once the images are selected; no pool is created and no image is
    loaded. *)
Theorem pool_needs_a_process (dirs : dirs_arg) (cap : option Z) (sname : string)
    (ext : gset string) (modes : modes_arg) (par : parallel_arg)
    (size : option (option Z * option Z)) (kw : kwargs) (w w1 : world)
    (ims : gmap string (list (string * string)))
    (sample : list (string * string) → M (list (string * string)))
    (sel : list string * list string * list string) (n : Z) :
  pool_size par = Some n → n < 1 →
  resolve ext (label_dirs dirs) = Ok ims →
  choose_sample cap sname = Ok sample →
  select sample ims w = (Ok sel, w1) →
  extract_features dirs cap sname ext modes par size kw w
  = (Raise (ValueError "Number of processes must be at least 1"), w1).
Proof.
  intros Hsize Hn Hres Hsample Hsel.
  rewrite (extract_features_selected _ _ _ _ _ _ _ _ _ _ _ _ _ Hres Hsample Hsel).
  destruct sel as [[ls ns] ps]. unfold dispatch.
  by rewrite bind_M, (choose_map_too_small _ _ _ Hsize Hn).
Qed.

(** *** What a call leaves behind *)



End outcome_facts.

Lemma no_image_is_an_error_witness :
  let C := Toy.collaborators {[ "docs" := ["notes.txt"; "readme.md"] ]} in
  @extract_features C (DirNames ["docs"]) None "first" DEFAULT_EXTENSIONS
    (Modes IMREAD_MODES) ParTrue None () (@World C 0%nat [])
  = (Raise UnpackError, @World C 0%nat []).
Proof.
  intros C.
  refine (proj2 (@no_image_is_an_error C (DirNames ["docs"]) None "first" DEFAULT_EXTENSIONS
            (Modes IMREAD_MODES) ParTrue None () _ _ _ _)).
  - assert (map_to_list (label_dirs (DirNames ["docs"])) = [("docs", "docs")]) as ->
      by (vm_compute; reflexivity).
    constructor; [|constructor]. eexists. split; [reflexivity|]. by_computation.
  - vm_compute. reflexivity.
  - eexists. reflexivity.
Defined.


Lemma uncapped_call_returns_every_image_witness :
  let C := Toy.collaborators three_images in
  ∃ F w',
    @extract_features C (DirNames ["one"]) None "first" DEFAULT_EXTENSIONS
      (Modes IMREAD_MODES) ParFalse None () (@World C 0%nat []) = (Ok F, w') ∧
    zip (labels F) (names F)
    ≡ₚ identity <$> @candidates C DEFAULT_EXTENSIONS [("one", "one")].
Proof.
  intros C. eexists _, _. split; [vm_compute; reflexivity|].
  refine (proj1 (@uncapped_call_returns_every_image C (DirNames ["one"]) "first"
            DEFAULT_EXTENSIONS (Modes IMREAD_MODES) ParFalse None () (@World C 0%nat [])
            _ _ _)).
  vm_compute. reflexivity.
Defined.

Lemma features_have_one_length_witness :
  let C := Toy.collaborators three_images in
  ∃ F w',
    @extract_features C (DirNames ["one"]) (Some 2) "random" DEFAULT_EXTENSIONS
      (Modes IMREAD_MODES) (ParInt 3) None () (@World C 0%nat []) = (Ok F, w') ∧
    length (names F) = length (labels F) ∧ length (frames F) = length (labels F) ∧
    length (features F) = length (labels F) ∧ length (records F) = length (labels F).
Proof.
  intros C. eexists _, _. split; [vm_compute; reflexivity|].
  refine (proj2 (@features_have_one_length C (DirNames ["one"]) (Some 2) "random"
            DEFAULT_EXTENSIONS (Modes IMREAD_MODES) (ParInt 3) None () (@World C 0%nat [])
            _ _ _ _)).
  - done.
  - vm_compute. reflexivity.
Defined.

Lemma pool_returns_what_serial_returns_witness :
  let C := Toy.collaborators three_images in
  (@extract_features C (DirNames ["one"]) None "first" DEFAULT_EXTENSIONS
     (Modes IMREAD_MODES) (ParInt 4) None () (@World C 0%nat [])).1
  = Ok (@mkFeatures C ["one"; "one"; "one"] ["a.jpg"; "bb.png"; "c.jpg"]
          [[9]; [10]; [9]] [[9; 7]; [10; 7]; [9; 7]]).
Proof.
  intros C.
  apply (@pool_returns_what_serial_returns C (DirNames ["one"]) None "first"
           DEFAULT_EXTENSIONS (Modes IMREAD_MODES) (ParInt 4) None () (@World C 0%nat []) 4).
  - reflexivity.
  - lia.
  - vm_compute. reflexivity.
Defined.

Lemma pool_needs_a_process_witness :
  let C := Toy.collaborators three_images in
  @extract_features C (DirNames ["one"]) None "first" DEFAULT_EXTENSIONS
    (Modes IMREAD_MODES) (ParInt 0) None () (@World C 0%nat [])
  = (Raise (ValueError "Number of processes must be at least 1"), @World C 0%nat []).
Proof.
  intros C.
  eapply (@pool_needs_a_process C (DirNames ["one"]) None "first" DEFAULT_EXTENSIONS
            (Modes IMREAD_MODES) (ParInt 0) None () (@World C 0%nat []) (@World C 0%nat [])).
  - reflexivity.
  - lia.
  - run_lhs.
  - reflexivity.
  - run_lhs.
Defined.


End OutcomeFacts.

(** ** Appending to an archive *)

Module AppendFacts.
Import ArchiveFacts.

Section append_facts.
Context `{Collaborators}.

Lemma attr_blind_ret {X} (x : X) : attr_blind (mret x).
Proof. by intros r a. Qed.

Lemma attr_blind_bind {X Y} (m : H5 X) (k : X → H5 Y) :
  attr_blind m → (∀ x, attr_blind (k x)) → attr_blind (m ≫= k).
Proof.
  intros Hm Hk r a. rewrite !bind_H5, (Hm r a).
  destruct (m (H5File r ∅)) as [[x|e] [r1 a1]]; simpl; [|done].
  rewrite (Hk x r1 a), (Hk x r1 a1). done.
Qed.

Lemma attr_blind_link path o : attr_blind (link path o).
Proof. intros r a. unfold link. simpl. by destruct (link_at path o r). Qed.

Lemma attr_blind_create_group g name : attr_blind (create_group g name).
Proof.
  apply attr_blind_bind; [apply attr_blind_link|]. intros _. apply attr_blind_ret.
Qed.

Lemma attr_blind_require_group g name : attr_blind (require_group g name).
Proof.
  intros r a. unfold require_group. simpl.
  destruct (lookup_path (target g name) r) as [[d|grp]|]; [done..|].
  apply attr_blind_create_group.
Qed.

Lemma attr_blind_save_record rec : attr_blind (save_record rec).
Proof.
  destruct rec as [[[label name] fr] de]. unfold save_record.
  apply attr_blind_bind; [apply attr_blind_require_group|]. intros lg.
  apply attr_blind_bind; [apply attr_blind_create_group|]. intros g.
  apply attr_blind_bind; [apply attr_blind_link|]. intros _. apply attr_blind_link.
Qed.

Lemma attr_blind_for_eachH {X} (body : X → H5 ()) l :
  (∀ x, attr_blind (body x)) → attr_blind (for_eachH body l).
Proof.
  intros Hb. induction l as [|x l IH]; [apply attr_blind_ret|].
  cbn [for_eachH]. apply attr_blind_bind; [apply Hb|]. by intros _.
Qed.

(** Writing the records leaves the attributes alone, and does the same
    to the groups under any attributes. *)
Lemma save_records_attrs rs f r f' :
  for_eachH save_record rs f = (r, f') → attrs f' = attrs f.
Proof.
  destruct f as [r0 a0].
  rewrite (attr_blind_for_eachH save_record rs attr_blind_save_record r0 a0).
  by intros [= _ <-].
Qed.

Lemma save_records_any_attrs rs r0 a0 a1 r f' :
  for_eachH save_record rs (H5File r0 a0) = (r, f') →
  for_eachH save_record rs (H5File r0 a1) = (r, H5File (root f') a1).
Proof.
  rewrite (attr_blind_for_eachH save_record rs attr_blind_save_record r0 a0).
  rewrite (attr_blind_for_eachH save_record rs attr_blind_save_record r0 a1).
  by intros [= <- <-].
Qed.

Lemma set_attrs_union (meta : gmap string string) r a0 :
  for_eachH (λ '(k, v), set_attr k v) (map_to_list meta) (H5File r a0)
  = (Ok (), H5File r (meta ∪ a0)).
Proof.
  rewrite set_attrs_outcome, foldl_insert_attrs by apply NoDup_fst_map_to_list.
  by rewrite list_to_map_to_list.
Qed.

(** What [save_features] does, in terms of its loop over the records. *)
Lemma save_features_outcome feats meta f :
  save_features feats meta f =
    match for_eachH save_record (records feats) f with
    | (Ok _, f1) => (Ok (), H5File (root f1) (meta ∪ attrs f1))
    | (Raise e, f1) => (Raise e, f1)
    end.
Proof.
  unfold save_features. rewrite bind_H5.
  destruct (for_eachH save_record (records feats) f) as [[[]|e] [r1 a1]]; [|done].
  apply set_attrs_union.
Qed.

(** X15: [save_features] only adds to the file.  However the write
    ends, every dataset that was in the file is still there with its
    array, and every group is still a group.  The metadata are set after
    the last record: a write that raises leaves the attributes of the root
    as they were, a write that returns has set the given ones over those
    that were there. *)
Theorem save_features_only_adds (feats : Features) (meta : gmap string string)
    (f f' : h5file) (r : res ()) :
  save_features feats meta f = (r, f') →
  extends (root f) (root f') ∧
  attrs f' = match r with Ok _ => meta ∪ attrs f | Raise _ => attrs f end.
Proof.
  rewrite save_features_outcome.
  destruct (for_eachH save_record (records feats) f) as [[[]|e] f1] eqn:Hrs;
    pose proof (save_records_extends _ _ _ _ Hrs) as Hext;
    pose proof (save_records_attrs _ _ _ _ Hrs) as Hattrs;
    intros [= <- <-]; simpl; by rewrite ?Hattrs.
Qed.

(** X17: the file is opened for appending, so two writes compose.  Two
    archives written one after the other into the same file leave it as one
    write of the two archives joined does, with the metadata of the second
    write set over those of the first. *)
Theorem successive_writes_compose (rs1 rs2 : list (string * string * ndarray * ndarray))
    (meta1 meta2 : gmap string string) (f f1 f2 : h5file) :
  save_features (of_records rs1) meta1 f = (Ok (), f1) →
  save_features (of_records rs2) meta2 f1 = (Ok (), f2) →
  save_features (of_records (rs1 ++ rs2)) (meta2 ∪ meta1) f = (Ok (), f2).
Proof.
  rewrite !save_features_outcome, !records_of_records, for_eachH_app.
  destruct (for_eachH save_record rs1 f) as [[[]|e1] g1] eqn:H1; [|done].
  intros [= <-].
  destruct g1 as [r1 a1]. cbn [root attrs].
  destruct (for_eachH save_record rs2 (H5File r1 (meta1 ∪ a1))) as [[[]|e2] g2] eqn:H2; [|done].
  intros [= <-].
  pose proof (save_records_attrs _ _ _ _ H2) as Ha2. cbn [attrs] in Ha2.
  rewrite (save_records_any_attrs _ _ _ a1 _ _ H2). cbn [root attrs].
  by rewrite Ha2, (assoc_L (∪)).
Qed.
End append_facts.

Lemma save_features_only_adds_witness :
  let C := Toy.collaborators ∅ in
  let old := @H5File C {[ "a" := H5Group {[ "i1" := H5Group {[ "frames" := H5Dataset [1] ]} ]} ]}
               {[ "args" := "old"; "kept" := "yes" ]} in
  let feats := @mkFeatures C ["b"; "a"] ["i2"; "i1"] [[2]; [3]] [[5]; [6]] in
  let after := @save_features C feats {[ "args" := "new" ]} old in
  after.1 = Raise (ValueError "name already exists") ∧
  @extends C (root old) (root after.2) ∧
  attrs after.2 = match after.1 with Ok _ => {[ "args" := "new" ]} ∪ attrs old | Raise _ => attrs old end ∧
  attrs after.2 !! "args" = Some "old" ∧
  @lookup_path C ["b"; "i2"; "features"] (root after.2) = Some (@H5Dataset C [5]).
Proof.
  intros C old feats after.
  split; [vm_compute; reflexivity|].
  destruct (@save_features_only_adds C feats {[ "args" := "new" ]} old after.2 after.1)
    as [Hext Hattrs]; [apply surjective_pairing|].
  split; [exact Hext|]. split; [exact Hattrs|]. split; vm_compute; reflexivity.
Defined.

Lemma successive_writes_compose_witness :
  let C := Toy.collaborators ∅ in
  let first := @save_features C (@of_records C [("a", "i1", [1], [4])])
                 {[ "args" := "first"; "run" := "1" ]} (@H5File C ∅ ∅) in
  let second := @save_features C (@of_records C [("b", "i2", [2], [5])])
                  {[ "args" := "second" ]} first.2 in
  @save_features C (@of_records C ([("a", "i1", [1], [4])] ++ [("b", "i2", [2], [5])]))
    ({[ "args" := "second" ]} ∪ {[ "args" := "first"; "run" := "1" ]}) (@H5File C ∅ ∅)
  = (Ok (), second.2) ∧
  attrs second.2 !! "args" = Some "second" ∧ attrs second.2 !! "run" = Some "1" ∧
  @read_features C second.2 false None
  = Ok (@mkFeatures C ["a"; "b"] ["i1"; "i2"] [[1]; [2]] [[4]; [5]], None).
Proof.
  intros C first second. split.
  - apply (@successive_writes_compose C [("a", "i1", [1], [4])] [("b", "i2", [2], [5])]
             {[ "args" := "first"; "run" := "1" ]} {[ "args" := "second" ]}
             (@H5File C ∅ ∅) first.2 second.2).
    + transitivity (first.1, first.2); [apply surjective_pairing|].
      f_equal; vm_compute; reflexivity.
    + transitivity (second.1, second.2); [apply surjective_pairing|].
      f_equal; vm_compute; reflexivity.
  - repeat split; vm_compute; reflexivity.
Defined.

End AppendFacts.

(** ** The extension test *)

Module ExtensionFacts.
Import ResolveFacts.

Lemma lower_char_idemp c : lower_char (lower_char c) = lower_char c.
Proof. destruct c as [[] [] [] [] [] [] [] []]; vm_compute; reflexivity. Qed.

Lemma lower_idemp s : lower (lower s) = lower s.
Proof. induction s as [|c s IH]; simpl; [done|]. by rewrite lower_char_idemp, IH. Qed.

Lemma lower_char_comma c : lower_char c = comma ↔ c = comma.
Proof.
  destruct c as [[] [] [] [] [] [] [] []]; vm_compute; split; congruence.
Qed.

Lemma split_on_lower s : split_on comma (lower s) = lower <$> split_on comma s.
Proof.
  induction s as [|c s IH]; [done|]. cbn [lower split_on].
  destruct (decide (c = comma)) as [->|Hc].
  - rewrite decide_True by done. csimpl. by rewrite IH.
  - rewrite decide_False by (by rewrite lower_char_comma). rewrite IH.
    by destruct (split_on comma s).
Qed.

(** A name that ends in a dot and a text without a dot splits there. *)
Lemma rsplit_last_extension stem e :
  ¬ has_dot e → rsplit_last dot (stem +:+ String dot e) = Some (stem, e).
Proof.
  intros He.
  assert (rsplit_last dot e = None) as Hn.
  { unfold has_dot, extension in He. destruct (rsplit_last dot e); [|done].
    destruct He. by eexists. }
  induction stem as [|c stem IH]; simpl.
  - rewrite Hn. by rewrite ?decide_True.
  - change (String.app stem (String dot e)) with (stem +:+ String dot e). by rewrite IH.
Qed.

Lemma qualifies_extension (ext : gset string) stem e :
  ¬ has_dot e → (qualifies ext (stem +:+ String dot e) ↔ lower e ∈ ext).
Proof.
  intros He. unfold qualifies, extension. rewrite rsplit_last_extension by done. simpl.
  split; [by intros (? & [= <-] & ?)|]. intros ?. by exists e.
Qed.

(** X13: the extension test lowers the extension of the file and takes
    the entries of [extensions] as they are.  A file whose name ends in a
    dot and [e] is recorded exactly when the lower-cased [e] is an entry; so
    the case of the file name does not matter, and an entry that is not in
    lower case matches no file at all. *)
Theorem extension_is_lowered_on_the_file_side (ext : gset string) (d lab stem e : string)
    (st : resolved) :
  ¬ has_dot e →
  ¬ seen_key st (lab, stem +:+ String dot e) →
  scan_file ext d lab st (stem +:+ String dot e)
  = Ok (if decide (lower e ∈ ext) then add_image d lab st (stem +:+ String dot e) else st) ∧
  ((∀ x, x ∈ ext → lower x ≠ x) → scan_file ext d lab st (stem +:+ String dot e) = Ok st).
Proof.
  intros He Hfresh.
  assert (scan_file ext d lab st (stem +:+ String dot e)
          = Ok (if decide (lower e ∈ ext)
                then add_image d lab st (stem +:+ String dot e) else st)) as Hscan.
  { destruct (decide (lower e ∈ ext)) as [Hin|Hnin].
    - apply scan_file_add; [|done]. by apply qualifies_extension.
    - apply scan_file_skip.
      + unfold has_dot, extension. rewrite rsplit_last_extension by done. by eexists.
      + by rewrite qualifies_extension. }
  split; [done|]. intros Hupper. rewrite Hscan.
  rewrite decide_False; [done|]. intros Hin. by apply (Hupper _ Hin), lower_idemp.
Qed.
(** X14: the option [--extensions] of the command line lowers what the
    user types before it splits it at the commas.  Its entries are the
    lower-cased items, so every entry is in lower case, and a file qualifies
    exactly when its extension and an item are equal up to case. *)
Theorem command_line_extensions_ignore_case (s : string) :
  (∀ x, x ∈ parse_extensions s ↔ ∃ item, item ∈ split_on comma s ∧ x = lower item) ∧
  (∀ x, x ∈ parse_extensions s → lower x = x) ∧
  (∀ stem e, ¬ has_dot e →
     (qualifies (parse_extensions s) (stem +:+ String dot e) ↔
      ∃ item, item ∈ split_on comma s ∧ lower e = lower item)).
Proof.
  assert (∀ x, x ∈ parse_extensions s ↔ ∃ item, item ∈ split_on comma s ∧ x = lower item)
    as Hin.
  { intros x. unfold parse_extensions.
    rewrite elem_of_list_to_set, split_on_lower, list_elem_of_fmap. naive_solver. }
  split; [done|]. split.
  - intros x (item & _ & ->)%Hin. apply lower_idemp.
  - intros stem e He. rewrite qualifies_extension by done. apply Hin.
Qed.

Lemma extension_is_lowered_on_the_file_side_witness :
  scan_file {[ "jpg" ]} "one" "cat" (Resolved ∅ ∅) "a.tar.JPG"
  = Ok (add_image "one" "cat" (Resolved ∅ ∅) "a.tar.JPG") ∧
  scan_file {[ "JPG" ]} "one" "cat" (Resolved ∅ ∅) "a.tar.JPG" = Ok (Resolved ∅ ∅).
Proof.
  assert (¬ has_dot "JPG") as He by by_computation.
  assert (¬ seen_key (Resolved ∅ ∅) ("cat", "a.tar" +:+ String dot "JPG")) as Hfresh.
  { unfold seen_key. simpl. rewrite lookup_total_empty. set_solver. }
  split.
  - etrans; [exact (proj1 (extension_is_lowered_on_the_file_side {[ "jpg" ]} "one" "cat"
                             "a.tar" "JPG" (Resolved ∅ ∅) He Hfresh))|].
    rewrite decide_True by by_computation. reflexivity.
  - apply (proj2 (extension_is_lowered_on_the_file_side {[ "JPG" ]} "one" "cat" "a.tar" "JPG"
                    (Resolved ∅ ∅) He Hfresh)).
    intros x ->%elem_of_singleton. by_computation.
Defined.

(** What the option makes of [PNG,Jpg]. *)
Example parse_extensions_mixed_case :
  parse_extensions "PNG,Jpg" = {[ "png"; "jpg" ]} ∧
  qualifies (parse_extensions "PNG,Jpg") "photo.JPG" ∧
  ¬ qualifies {[ "PNG"; "Jpg" ]} "photo.JPG".
Proof. split; [by_computation|]. split; by_computation. Qed.

End ExtensionFacts.

(** ** A cap that no label reaches *)

Module CapFacts.
Import SelectFacts OutcomeFacts.

Section cap_facts.
Context `{Collaborators}.

Lemma comprehensionM_ext {X Y} (f g : X → M Y) l w :
  (∀ x w, x ∈ l → f x w = g x w) → comprehensionM f l w = comprehensionM g l w.
Proof.
  revert w. induction l as [|x l IH]; intros w Hfg; [done|].
  cbn [comprehensionM]. rewrite !bind_M, Hfg by left.
  destruct (g x w) as [[y|e] w0]; [|done].
  rewrite !bind_M, IH; [done|]. intros x' w' Hx'. apply Hfg. by right.
Qed.

(** X18: a cap that no label reaches changes nothing.  With the [first]
    or the [uniform] sampler and a cap that is at least the number of
    images of every label, the call does what it does without a cap. *)
Theorem generous_cap_is_no_cap (dirs : dirs_arg) (n : Z) (sname : string)
    (ext : gset string) (modes : modes_arg) (par : parallel_arg)
    (size : option (option Z * option Z)) (kw : kwargs) (w : world)
    (ims : gmap string (list (string * string))) :
  resolve ext (label_dirs dirs) = Ok ims →
  (∀ label images, ims !! label = Some images → Z.of_nat (length images) ≤ n) →
  sname = "first" ∨ sname = "uniform" →
  extract_features dirs (Some n) sname ext modes par size kw w
  = extract_features dirs None sname ext modes par size kw w.
Proof.
  intros Hres Hcap Hs. unfold extract_features. rewrite !bind_lift, Hres, !bind_lift.
  assert (∃ s, choose_sample (Some n) sname = Ok (λ x, with_rng (s x n)) ∧
               ∀ (x : list (string * string)) g,
                 Z.of_nat (length x) ≤ n → s x n g = (Ok x, g)) as (s & -> & Hsame).
  { destruct Hs as [-> | ->].
    - exists sample_first. split; [apply choose_sample_first|].
      intros x g Hx. unfold sample_first. rewrite slice_to_nonneg by lia.
      by rewrite take_ge by lia.
    - exists sample_uniform. split; [reflexivity|].
      intros x g Hx. unfold sample_uniform. by rewrite SamplerFacts.sample_uniform_all. }
  cbn [choose_sample]. rewrite !bind_M.
  assert (select (λ x, with_rng (s x n)) ims w = select (λ x, mret x) ims w) as ->; [|done].
  unfold select. rewrite !bind_M.
  rewrite (comprehensionM_ext (select_label (λ x, with_rng (s x n)))
             (select_label (λ x, mret x))); [done|].
  intros [label images] w0 Hin%elem_of_map_to_list. unfold select_label. rewrite !bind_M.
  unfold with_rng. rewrite Hsame, world_eta; [done|].
  rewrite (Permutation_length (sorted_pairs_perm images)). by eapply Hcap.
Qed.
End cap_facts.

Lemma generous_cap_is_no_cap_witness :
  let C := Toy.collaborators three_images in
  @extract_features C (DirNames ["one"]) (Some 3) "uniform" DEFAULT_EXTENSIONS
    (Modes IMREAD_MODES) ParFalse None () (@World C 0%nat [])
  = @extract_features C (DirNames ["one"]) None "uniform" DEFAULT_EXTENSIONS
      (Modes IMREAD_MODES) ParFalse None () (@World C 0%nat []).
Proof.
  intros C.
  apply (@generous_cap_is_no_cap C (DirNames ["one"]) 3 "uniform" DEFAULT_EXTENSIONS
           (Modes IMREAD_MODES) ParFalse None () (@World C 0%nat [])
           {[ "one" := [("one", "c.jpg"); ("one", "a.jpg"); ("one", "bb.png")] ]}).
  - vm_compute. reflexivity.
  - intros label images Hl. destruct (decide (label = "one")) as [->|Hne].
    + rewrite lookup_singleton_eq in Hl. injection Hl as <-. simpl. lia.
    + by rewrite lookup_singleton_ne in Hl.
  - by right.
Defined.

End CapFacts.
